(** * Keystone Redactor Framework: placeholder redaction and restoration

    A shallow embedding of the text pipeline (PIIDetector, Redactor,
    Restorer) and of the image pipeline (ImageDetector, ImageRedactor),
    followed by the properties the specification states about them.

    Python [str] values are lists of characters, [int] offsets are [Z],
    a [dict] is an association list in insertion order (Python dicts
    iterate in insertion order and the restorer depends on it), and
    [logging] calls append records to an explicit log. *)

From Stdlib Require Import Ascii String.
From Stdlib Require Import List ZArith QArith Lia Bool Arith.
From Stdlib Require Import Permutation Sorted.
From Stdlib Require Decimal DecimalNat DecimalString.
Import ListNotations.

Local Open Scope list_scope.
Local Open Scope nat_scope.

(* ================================================================== *)
(** ** Python primitives used by the sources *)
(* ================================================================== *)

Module Py.

Definition str := list ascii.

(** String literals of the sources. *)
Definition lit (s : string) : str := list_ascii_of_string s.

Fixpoint str_eqb (a b : str) : bool :=
  match a, b with
  | [], [] => true
  | x :: a', y :: b' => Ascii.eqb x y && str_eqb a' b'
  | _, _ => false
  end.

(** [s.startswith(p)]. *)
Fixpoint startswith (p s : str) : bool :=
  match p, s with
  | [], _ => true
  | x :: p', y :: s' => Ascii.eqb x y && startswith p' s'
  | _ :: _, [] => false
  end.

(** [p in s] on strings: [p] occurs in [s] as a substring. *)
Fixpoint contains (p s : str) : bool :=
  startswith p s ||
  match s with
  | [] => false
  | _ :: s' => contains p s'
  end.

(** The scan of [s.replace(old, new)] for a non-empty [old]: occurrences
    are found left to right and do not overlap; [skip] counts the
    characters of the occurrence just replaced that are still to be
    passed over. *)
Fixpoint replace_from (old new : str) (skip : nat) (s : str) : str :=
  match s with
  | [] => []
  | c :: s' =>
      match skip with
      | S k => replace_from old new k s'
      | O =>
          if startswith old s
          then new ++ replace_from old new (length old - 1) s'
          else c :: replace_from old new 0 s'
      end
  end.

(** [s.replace(old, new)].  With an empty [old] Python inserts [new]
    before every character and at the end. *)
Definition replace (old new s : str) : str :=
  match old with
  | [] => new ++ flat_map (fun c => c :: new) s
  | _ :: _ => replace_from old new 0 s
  end.

(** Slice bounds: a negative index counts from the end, and every
    index is clamped to the string. *)
Definition slice_index (n : nat) (i : Z) : nat :=
  if (i <? 0)%Z then Z.to_nat (Z.of_nat n + i) else Nat.min (Z.to_nat i) n.

(** [s[:i]] *)
Definition slice_to (s : str) (i : Z) : str :=
  firstn (slice_index (length s) i) s.

(** [s[i:]] *)
Definition slice_from (s : str) (i : Z) : str :=
  skipn (slice_index (length s) i) s.

(** [s[i:j]] *)
Definition slice (s : str) (i j : Z) : str :=
  skipn (slice_index (length s) i) (firstn (slice_index (length s) j) s).

(** [str(n)] for a non-negative [int]. *)
Definition str_of_nat (n : nat) : str :=
  lit (DecimalString.NilEmpty.string_of_uint (Nat.to_uint n)).

(** [chr(n)], on the code points a character of this model can hold. *)
Definition chr (n : nat) : option ascii :=
  if n <? 256 then Some (ascii_of_nat n) else None.

Definition ord (c : ascii) : nat := nat_of_ascii c.

(** A [dict] keyed by strings, in insertion order. *)
Definition dict (V : Type) := list (str * V).

Fixpoint dict_get {V : Type} (d : dict V) (k : str) : option V :=
  match d with
  | [] => None
  | (k', v) :: d' => if str_eqb k k' then Some v else dict_get d' k
  end.

(** [d[k] = v]: an existing key keeps its position. *)
Fixpoint dict_set {V : Type} (k : str) (v : V) (d : dict V) : dict V :=
  match d with
  | [] => [(k, v)]
  | (k', v') :: d' =>
      if str_eqb k k' then (k, v) :: d' else (k', v') :: dict_set k v d'
  end.

Definition keys {V : Type} (d : dict V) : list str := map fst d.

Definition values {V : Type} (d : dict V) : list V := map snd d.

(** [sorted(l, key=..., reverse=...)].  The sort is stable: going from
    the right, an element is put before the first element of the sorted
    rest that does not come strictly before it; [before y x] says that
    the key of [y] comes strictly before the key of [x] in the order
    asked for. *)
Fixpoint insert_sorted {A : Type} (before : A -> A -> bool) (x : A)
    (l : list A) : list A :=
  match l with
  | [] => [x]
  | y :: l' => if before y x then y :: insert_sorted before x l' else x :: l
  end.

Definition sorted {A : Type} (before : A -> A -> bool) (l : list A) : list A :=
  fold_right (insert_sorted before) [] l.

(** [x in xs] for a list of strings. *)
Definition mem (x : str) (xs : list str) : bool := existsb (str_eqb x) xs.

End Py.

Import Py.

(* ================================================================== *)
(** ** The placeholder syntax *)
(* ================================================================== *)

(** Placeholders are bracketed tokens, ["[{TYPE}_{ID}]"].  The notions
    below describe texts in terms of such tokens; the properties of the
    substitutions are stated with them. *)
Module Shape.

Definition lbr : ascii := "["%char.
Definition rbr : ascii := "]"%char.
Definition underscore : ascii := "_"%char.

Definition has_char (c : ascii) (s : str) : bool := existsb (Ascii.eqb c) s.

(** A bracketed token: an opening bracket, a body without brackets, a
    closing bracket. *)
Definition bracketed (p : str) : Prop :=
  exists body, p = lbr :: body ++ [rbr] /\ ~ In lbr body /\ ~ In rbr body.

Definition bracketedb (p : str) : bool :=
  match p with
  | c :: rest =>
      Ascii.eqb c lbr &&
      match List.rev rest with
      | d :: ydob =>
          Ascii.eqb d rbr && negb (has_char lbr ydob) && negb (has_char rbr ydob)
      | [] => false
      end
  | [] => false
  end.

(** A placeholder-shaped token, a bracketed [TYPE_ID]: a bracketed
    token whose body holds an underscore. *)
Definition placeholder_shaped (p : str) : Prop :=
  exists body,
    p = lbr :: body ++ [rbr] /\ ~ In lbr body /\ ~ In rbr body /\
    In underscore body.

Definition placeholder_shapedb (p : str) : bool :=
  bracketedb p && has_char underscore p.

(** A text cut into pieces: stretches of plain text and tokens. *)
Inductive piece : Type :=
| Gap (g : str)
| Tok (p : str).

Definition piece_text (it : piece) : str :=
  match it with
  | Gap g => g
  | Tok p => p
  end.

Definition flatten (its : list piece) : str := flat_map piece_text its.

(** The plain stretches hold no opening bracket, the tokens are
    bracketed. *)
Definition piece_ok (it : piece) : Prop :=
  match it with
  | Gap g => ~ In lbr g
  | Tok p => bracketed p
  end.

(** Token-wise substitution of one placeholder. *)
Definition subst1 (key value : str) (its : list piece) : list piece :=
  map (fun it =>
         match it with
         | Gap g => Gap g
         | Tok p => if str_eqb p key then Gap value else Tok p
         end) its.

(** Token-wise substitution of every key of a mapping. *)
Definition subst_all (m : dict str) (its : list piece) : list piece :=
  map (fun it =>
         match it with
         | Gap g => Gap g
         | Tok p =>
             match dict_get m p with
             | Some value => Gap value
             | None => Tok p
             end
         end) its.

End Shape.

Import Shape.

(* ================================================================== *)
(** ** redactor/detector.py: PIIDetector *)
(* ================================================================== *)

(** An entity dictionary of the text pipeline:
    [{"entity": ..., "label": ..., "start": ..., "end": ...}]. *)
Record TextEntity : Type := mkTextEntity {
  entity : str;
  label : str;
  start : Z;
  end_ : Z
}.

Module PIIDetector.

(** The sort key [(e['start'], -e['end'])], compared as Python compares
    tuples. *)
Definition key_lt (a b : TextEntity) : bool :=
  ((start a <? start b) ||
   ((start a =? start b) && (- end_ a <? - end_ b)))%Z.

(** The loop body of [_deduplicate_and_sort_entities]; the state is
    [(deduplicated, last_end)]. *)
Definition dedup_step (st : list TextEntity * Z) (e : TextEntity)
  : list TextEntity * Z :=
  let '(deduplicated, last_end) := st in
  if (end_ e <=? last_end)%Z then st
  else if (start e <? last_end)%Z then st
  else (deduplicated ++ [e], end_ e).

Definition _deduplicate_and_sort_entities (entities : list TextEntity)
  : list TextEntity :=
  match entities with
  | [] => []
  | _ :: _ =>
      let sorted_entities := sorted key_lt entities in
      fst (fold_left dedup_step sorted_entities ([], (-1)%Z))
  end.

End PIIDetector.

(* ================================================================== *)
(** ** redactor/redactor.py: Redactor *)
(* ================================================================== *)

Module Redactor.

Definition _generate_placeholder_id (count : nat) : str :=
  if count <? 26
  then [ascii_of_nat (ord "A"%char + count)]
  else str_of_nat count.

(** The f-string ["[{label}_{placeholder_id}]"]. *)
Definition placeholder_of (label placeholder_id : str) : str :=
  lit "[" ++ label ++ lit "_" ++ placeholder_id ++ lit "]".

(** The order of [key=lambda e: e['start'], reverse=True]: the greater
    start first. *)
Definition start_gt (a b : TextEntity) : bool := (start b <? start a)%Z.

Definition sorted_desc (l : list TextEntity) : list TextEntity :=
  sorted start_gt l.

(** [label_counts = defaultdict(int)]. *)
Definition count_of (label_counts : dict nat) (l : str) : nat :=
  match dict_get label_counts l with
  | Some n => n
  | None => 0
  end.

Record state : Type := mkState {
  redacted_text : str;
  label_counts : dict nat;
  placeholder_map : dict str
}.

(** One iteration of the loop over [sorted_entities]. *)
Definition redact_step (st : state) (e : TextEntity) : state :=
  let placeholder_id :=
    _generate_placeholder_id (count_of (label_counts st) (label e)) in
  let placeholder := placeholder_of (label e) placeholder_id in
  let counts' :=
    dict_set (label e) (count_of (label_counts st) (label e) + 1)
             (label_counts st) in
  let text' :=
    slice_to (redacted_text st) (start e) ++ placeholder
      ++ slice_from (redacted_text st) (end_ e) in
  mkState text' counts' (dict_set placeholder (entity e) (placeholder_map st)).

(** [labels_to_redact] is [None] or a list; [if labels_to_redact:]
    is false for [None] and for the empty list alike. *)
Definition entities_to_process (entities : list TextEntity)
    (labels_to_redact : option (list str)) : list TextEntity :=
  match labels_to_redact with
  | Some (l :: ls) => filter (fun e => mem (label e) (l :: ls)) entities
  | Some [] => entities
  | None => entities
  end.

Definition redact_state (text : str) (entities : list TextEntity)
    (labels_to_redact : option (list str)) : state :=
  fold_left redact_step
    (sorted_desc (entities_to_process entities labels_to_redact))
    (mkState text [] []).

Definition redact (text : str) (entities : list TextEntity)
    (labels_to_redact : option (list str)) : str * dict str :=
  let st := redact_state text entities labels_to_redact in
  (redacted_text st, placeholder_map st).

End Redactor.

(* ================================================================== *)
(** ** redactor/restorer.py: Restorer *)
(* ================================================================== *)

Module Restorer.

(** The two per-entry log calls of the loop. *)
Inductive LogRecord : Type :=
| InfoRestoring (placeholder original_value : str)
| WarningNotFound (placeholder : str).

Definition restore_step (st : str * list LogRecord) (kv : str * str)
  : str * list LogRecord :=
  let '(restored_text, log) := st in
  let '(placeholder, original_value) := kv in
  if contains placeholder restored_text
  then (replace placeholder original_value restored_text,
        log ++ [InfoRestoring placeholder original_value])
  else (restored_text, log ++ [WarningNotFound placeholder]).

(** The loop over [placeholder_map.items()] with the log it leaves. *)
Definition restore_run (llm_output : str) (placeholder_map : dict str)
  : str * list LogRecord :=
  fold_left restore_step placeholder_map (llm_output, []).

Definition restore (llm_output : str) (placeholder_map : dict str) : str :=
  fst (restore_run llm_output placeholder_map).

End Restorer.

(* ================================================================== *)
(** ** redactor/base/entities.py: Entity and Mapping *)
(* ================================================================== *)

Definition Box : Type := (Z * Z * Z * Z)%type.

(** The [Entity] dataclass.  Confidences and timestamps are rationals:
    no property below computes with them. *)
Record Entity : Type := mkEntity {
  type : str;
  placeholder : str;
  confidence : Q;
  modality : str;
  original_text : option str;
  bbox : option Box;
  timestamp : option (Q * Q);
  metadata : dict str
}.

(** The [Mapping] dataclass. *)
Record Mapping : Type := mkMapping {
  mapping_placeholder : str;
  mapping_entity : Entity;
  restorable : bool
}.

(* ================================================================== *)
(** ** redactor/image/detector.py: ImageDetector *)
(* ================================================================== *)

Module ImageDetector.

(** [f'[FACE_{chr(64 + self._face_counter)}]'], for counters whose
    character this model can hold. *)
Definition face_placeholder (face_counter : nat) : option str :=
  match chr (64 + face_counter) with
  | Some c => Some (lit "[FACE_" ++ [c] ++ lit "]")
  | None => None
  end.

(** The loop of [detect_faces] over the locations
    [(top, right, bottom, left)] the face library returns; the state is
    [(results, self._face_counter)], and [None] once a counter has left
    the characters of this model (beyond 191 faces). *)
Definition face_step (face_model : str)
    (st : option (list Entity * nat)) (loc : Z * Z * Z * Z)
  : option (list Entity * nat) :=
  match st with
  | None => None
  | Some (results, face_counter) =>
      let '(top, right_, bottom, left_) := loc in
      let face_counter := face_counter + 1 in
      match face_placeholder face_counter with
      | None => None
      | Some placeholder =>
          let e := mkEntity (lit "FACE") placeholder (99 # 100) (lit "image")
                     None (Some (left_, top, right_, bottom)) None
                     [(lit "detection_method", face_model)] in
          Some (results ++ [e], face_counter)
      end
  end.

(** [detect_faces] as [detect] calls it, right after the counters were
    reset to zero. *)
Definition detect_faces (face_model : str)
    (face_locations : list (Z * Z * Z * Z)) : option (list Entity) :=
  option_map fst (fold_left (face_step face_model) face_locations (Some ([], 0))).

End ImageDetector.

(* ================================================================== *)
(** ** redactor/image/redactor.py: ImageRedactor *)
(* ================================================================== *)

Module ImageRedactor.

Inductive DrawOp : Type :=
| Rectangle (xy : Box) (fill : str)
| DrawText (xy : Q * Q) (text : str).

Inductive LogRecord : Type :=
| ErrorNotFound (image_path : str)
| ErrorInvalid (image_path : str)
| InfoNoEntities
| WarningMissingBbox (placeholder : str)
| WarningSmallBox (text : str)
| DebugRedacted (placeholder : str)
| ErrorFailed (placeholder : str)
| InfoComplete (processed : nat).

Inductive Raised : Type := FileNotFoundError | IOError.

(** The dictionary stored under each placeholder. *)
Record MappingEntry : Type := mkEntry {
  entry_placeholder : str;
  original_type : str;
  entry_bbox : Box;
  entry_confidence : Q;
  redacted_at : str;
  entry_modality : str;
  entry_original_text : option str;
  entry_metadata : dict str
}.

Section WithCapabilities.

(** The imaging library: [Image_open] is
    [Image.open(path).copy().convert("RGB")], [draw] one call on the
    [ImageDraw] object ([None] when the call raises), [utcnow] the
    clock readings in the order they are taken. *)
Variable Image : Type.
Variable Image_open : str -> Image + Raised.
Variable draw : Image -> DrawOp -> option Image.
Variable utcnow : nat -> str.

(** The constructor arguments. *)
Variable draw_borders : bool.
Variable border_color : str.
Variable border_width : Z.

(** What a drawing helper leaves: the image as drawn so far, and
    whether an exception is propagating. *)
Inductive outcome : Type :=
| Returned (img : Image)
| Raising (img : Image).

Definition _draw_blackout_box (img : Image) (b : Box) : outcome :=
  let '(x1, y1, x2, y2) := b in
  let blackout img :=
    match draw img (Rectangle b (lit "black")) with
    | Some img' => Returned img'
    | None => Raising img
    end in
  if draw_borders then
    let bordered_bbox :=
      (x1 - border_width, y1 - border_width,
       x2 + border_width, y2 + border_width)%Z in
    match draw img (Rectangle bordered_bbox border_color) with
    | Some img' => blackout img'
    | None => Raising img
    end
  else blackout img.

Definition _draw_label_text (img : Image) (log : list LogRecord)
    (b : Box) (text : str) : outcome * list LogRecord :=
  let '(x1, y1, x2, y2) := b in
  if ((x2 - x1 <? 10) || (y2 - y1 <? 10))%Z then
    (Returned img, log ++ [WarningSmallBox text])
  else
    let center_x := ((x1 + x2)%Z # 2) in
    let center_y := ((y1 + y2)%Z # 2) in
    match draw img (DrawText (center_x, center_y) text) with
    | Some img' => (Returned img', log)
    | None => (Raising img, log)
    end.

Record state : Type := mkState {
  redacted_image : Image;
  mapping : dict MappingEntry;
  log : list LogRecord;
  clock : nat
}.

(** One iteration of the loop over [entities]. *)
Definition redact_entity (st : state) (e : Entity) : state :=
  match bbox e with
  | None =>
      mkState (redacted_image st) (mapping st)
              (log st ++ [WarningMissingBbox (placeholder e)]) (clock st)
  | Some b =>
      match _draw_blackout_box (redacted_image st) b with
      | Raising img =>
          mkState img (mapping st)
                  (log st ++ [ErrorFailed (placeholder e)]) (clock st)
      | Returned img =>
          match _draw_label_text img (log st) b (placeholder e) with
          | (Raising img', log') =>
              mkState img' (mapping st)
                      (log' ++ [ErrorFailed (placeholder e)]) (clock st)
          | (Returned img', log') =>
              let entry :=
                mkEntry (placeholder e) (type e) b (confidence e)
                        (utcnow (clock st)) (lit "image")
                        (original_text e) (metadata e) in
              mkState img' (dict_set (placeholder e) entry (mapping st))
                      (log' ++ [DebugRedacted (placeholder e)])
                      (S (clock st))
          end
      end
  end.

(** [redact]: what it raises, or the image and mapping it returns,
    with the log either way. *)
Definition redact (image_path : str) (entities : list Entity)
  : ((Image * dict MappingEntry) + Raised) * list LogRecord :=
  match Image_open image_path with
  | inr FileNotFoundError => (inr FileNotFoundError, [ErrorNotFound image_path])
  | inr IOError => (inr IOError, [ErrorInvalid image_path])
  | inl opened =>
      match entities with
      | [] => (inl (opened, []), [InfoNoEntities])
      | _ :: _ =>
          let st := fold_left redact_entity entities
                      (mkState opened [] [] 0) in
          (inl (redacted_image st, mapping st),
           log st ++ [InfoComplete (length (mapping st))])
      end
  end.

End WithCapabilities.

Arguments Returned {Image} img.
Arguments Raising {Image} img.
Arguments mkState {Image} redacted_image mapping log clock.
Arguments redacted_image {Image} s.
Arguments mapping {Image} s.
Arguments log {Image} s.
Arguments clock {Image} s.

End ImageRedactor.

(* ================================================================== *)
(** ** redactor/image/restorer.py: the restoration engine *)
(* ================================================================== *)

Module RestorationEngine.

(** The statistics the engine reports; the elapsed time is left out. *)
Record Stats : Type := mkStats {
  total_placeholders_found : nat;
  restored_placeholders : list str;
  hallucinated_placeholders : list str;
  unused_placeholders : list str
}.

Definition restored_count (s : Stats) : nat := length (restored_placeholders s).

(** Modelled from the spec: the restoration pass of ImageRestorer.restore
    (redactor/image/restorer.py, which the package imports and
    demo_image.py calls, is not among the sources).  An entry is
    rewritten only when its [restorable] flag is set, by whole-string
    substitution of its placeholder with the original text; a mapped
    placeholder that does not occur is recorded as unused.  The state
    is [(text, restored, unused)]. *)
Definition restoration_step (st : str * list str * list str)
    (kv : str * Mapping) : str * list str * list str :=
  let '(text, restored, unused) := st in
  let '(key, m) := kv in
  if contains key text then
    if restorable m then
      match original_text (mapping_entity m) with
      | Some original_value =>
          (replace key original_value text, restored ++ [key], unused)
      | None => st
      end
    else st
  else (text, restored, unused ++ [key]).

Definition restoration_pass (output : str) (mapping : dict Mapping)
  : str * list str * list str :=
  fold_left restoration_step mapping (output, [], []).

(** Modelled from the spec: the placeholder syntax of the hallucination
    pass of ImageRestorer.restore, a bracketed TYPE_ID token: an opening
    bracket, a body without brackets that holds an underscore, a closing
    bracket.  [cur] is the body read since the last opening bracket. *)
Fixpoint scan_from (cur : option str) (s : str) : list str :=
  match s with
  | [] => []
  | c :: s' =>
      if Ascii.eqb c lbr then scan_from (Some []) s'
      else if Ascii.eqb c rbr then
        match cur with
        | Some body =>
            (if has_char underscore body
             then [lbr :: body ++ [rbr]] else [])
              ++ scan_from None s'
        | None => scan_from None s'
        end
      else scan_from (option_map (fun body => body ++ [c]) cur) s'
  end.

Definition placeholder_tokens (output : str) : list str :=
  scan_from None output.

(** Modelled from the spec: the hallucination pass of
    ImageRestorer.restore, run on the output independently of the
    restoration pass: a placeholder-shaped token that is no key of the
    mapping is hallucinated. *)
Definition hallucination_pass (output : str) (mapping_keys : list str)
  : list str :=
  filter (fun tok => negb (mem tok mapping_keys)) (placeholder_tokens output).

(** Modelled from the spec: ImageRestorer.restore, the two passes and
    the statistics. *)
Definition restore (output : str) (mapping : dict Mapping) : str * Stats :=
  let '(text, restored, unused) := restoration_pass output mapping in
  (text,
   mkStats (length (placeholder_tokens output)) restored
           (hallucination_pass output (keys mapping)) unused).

End RestorationEngine.

(* ================================================================== *)
(** ** Reading a redaction off the original text *)
(* ================================================================== *)

(** The notions the properties of [Redactor.redact] are stated with. *)
Module RedactorView.

(** The entity lies in [T]: a span within the text, and a value that is
    the text of the span. *)
Definition spans_text (T : str) (e : TextEntity) : Prop :=
  (0 <= start e <= end_ e)%Z /\ (end_ e <= Z.of_nat (length T))%Z /\
  entity e = slice T (start e) (end_ e).

(** The same with a non-empty span, as the detectors find them. *)
Definition detected_in (T : str) (e : TextEntity) : Prop :=
  (0 <= start e < end_ e)%Z /\ (end_ e <= Z.of_nat (length T))%Z /\
  entity e = slice T (start e) (end_ e).

Definition disjoint (a b : TextEntity) : Prop :=
  (end_ a <= start b \/ end_ b <= start a)%Z.

(** No two entities of the list overlap. *)
Definition non_overlapping (E : list TextEntity) : Prop :=
  ForallOrdPairs disjoint E.

Definition bracket_free (s : str) : Prop := ~ In lbr s /\ ~ In rbr s.

(** Entities from right to left, each ending where the text to its
    right begins, the rightmost ending by [b]. *)
Fixpoint chain (b : Z) (es : list TextEntity) : Prop :=
  match es with
  | [] => True
  | e :: es' =>
      (0 <= start e < end_ e)%Z /\ (end_ e <= b)%Z /\ chain (start e) es'
  end.

(** How many of the entities seen so far carry the label. *)
Definition count_same (l : str) (seen : list TextEntity) : nat :=
  length (filter (fun e => str_eqb (label e) l) seen).

(** The placeholder of each entity in processing order, with its
    value: the suffix of an entity counts the entities of its label
    processed before it. *)
Fixpoint numbered (seen es : list TextEntity) : dict str :=
  match es with
  | [] => []
  | e :: es' =>
      (Redactor.placeholder_of (label e)
         (Redactor._generate_placeholder_id (count_same (label e) seen)),
       entity e) :: numbered (seen ++ [e]) es'
  end.

(** The first [b] characters of [T] after the entities [es], given
    from right to left, were replaced by the placeholders [phs]. *)
Fixpoint view (T : str) (b : Z) (es : list TextEntity) (phs : list str)
  : list piece :=
  match es, phs with
  | e :: es', p :: phs' =>
      view T (start e) es' phs' ++ [Tok p; Gap (slice T (end_ e) b)]
  | _, _ => [Gap (slice T 0 b)]
  end.

Definition descending (es : list TextEntity) : Prop :=
  StronglySorted (fun a b => (start b <= start a)%Z) es.

(** The counter dictionary agrees with the entities seen so far. *)
Definition counts_ok (c : dict nat) (seen : list TextEntity) : Prop :=
  forall l, Redactor.count_of c l = count_same l seen.

(** The replacement of one span, and of the spans of a list in turn. *)
Definition text_step (t : str) (e : TextEntity) (p : str) : str :=
  slice_to t (start e) ++ p ++ slice_from t (end_ e).

Fixpoint text_fold (t : str) (es : list TextEntity) (phs : list str) : str :=
  match es, phs with
  | e :: es', p :: phs' => text_fold (text_step t e p) es' phs'
  | _, _ => t
  end.

(** The assignments [m[k] = v] of a list in turn. *)
Definition set_all {V : Type} (l m : dict V) : dict V :=
  fold_left (fun m kv => dict_set (fst kv) (snd kv) m) l m.

End RedactorView.

Import RedactorView.

(* ================================================================== *)
(** ** Sample data *)
(* ================================================================== *)

(** Inputs in the style of the demo scripts, used to run the properties
    on concrete values. *)
Module Samples.

Definition sample_text : str := lit "Call Bob or Ann".

Definition sample_entities : list TextEntity :=
  [ mkTextEntity (lit "Bob") (lit "PERSON") 5 8;
    mkTextEntity (lit "Ann") (lit "PERSON") 12 15 ].

Definition jane_mapping : dict str := [(lit "[PERSON_A]", lit "Jane Doe")].

Definition demo_mapping : dict str :=
  [(lit "[PERSON_A]", lit "Jane Doe"); (lit "[EMAIL_A]", lit "jane@example.com")].

Definition contact_text : str :=
  lit "Contact John Doe at jd@g.co, who works for Google.".

Definition contact_entities : list TextEntity :=
  [ mkTextEntity (lit "John Doe") (lit "PERSON") 8 16;
    mkTextEntity (lit "jd@g.co") (lit "EMAIL") 20 27;
    mkTextEntity (lit "Google") (lit "ORG") 43 49 ].

(** An image as the list of the drawing calls made on it, an imaging
    library that finds every file but one, and a clock that counts. *)
Definition canvas : Type := list ImageRedactor.DrawOp.

Definition canvas_open (image_path : str) : canvas + ImageRedactor.Raised :=
  if str_eqb image_path (lit "missing.jpg")
  then inr ImageRedactor.FileNotFoundError
  else inl [].

Definition canvas_draw (img : canvas) (op : ImageRedactor.DrawOp) : option canvas :=
  Some (img ++ [op]).

Definition clock_reading (n : nat) : str := str_of_nat n.

(** A face too small for a label, and the same face at full size. *)
Definition tiny_face : Entity :=
  mkEntity (lit "FACE") (lit "[FACE_A]") (99 # 100) (lit "image")
           None (Some (50, 50, 56, 90)%Z) None [].

Definition face_locations_27 : list (Z * Z * Z * Z) :=
  map (fun n => (0, 10 * Z.of_nat n + 8, 8, 10 * Z.of_nat n)%Z) (seq 0 27).



End Samples.

Import Samples.

(* ================================================================== *)
(** ** What an entry does to the text *)
(* ================================================================== *)

Module EngineView.

(** The effect of one mapping entry of the restoration engine on the
    running text. *)
Definition act (kv : str * Mapping) (t : str) : str :=
  if restorable (snd kv) then
    match original_text (mapping_entity (snd kv)) with
    | Some original_value => replace (fst kv) original_value t
    | None => t
    end
  else t.

Definition restored_text (output : str) (mapping : dict Mapping) : str :=
  fst (RestorationEngine.restore output mapping).

Definition is_restorable (kv : str * Mapping) : bool := restorable (snd kv).

(** A face entity and an OCR entity as the image detector emits them. *)
Definition face_entity : Entity :=
  mkEntity (lit "FACE") (lit "[FACE_A]") (99 # 100) (lit "image")
           None (Some (50, 50, 250, 250)%Z) None [].

Definition text_entity : Entity :=
  mkEntity (lit "OCR_TEXT") (lit "[TEXT_A]") (95 # 100) (lit "image")
           (Some (lit "XYZ-1234")) (Some (100, 350, 600, 400)%Z) None [].

Definition image_mapping : dict Mapping :=
  [ (lit "[FACE_A]", mkMapping (lit "[FACE_A]") face_entity false);
    (lit "[TEXT_A]", mkMapping (lit "[TEXT_A]") text_entity true) ].

End EngineView.

Import EngineView.

(* ================================================================== *)
(** ** Orders on text entities *)
(* ================================================================== *)

Module DedupView.

(** The order of the sort key [(start, -end)]: by start, and among equal
    starts the longer span first. *)
Definition key_le (a b : TextEntity) : Prop :=
  (start a < start b \/ (start a = start b /\ end_ b <= end_ a))%Z.

Definition start_le (a b : TextEntity) : Prop := (start a <= start b)%Z.

(** [a] ends before [b] starts. *)
Definition ends_before (a b : TextEntity) : Prop := (end_ a <= start b)%Z.

(** [a] was accepted before [b]: it comes first in the scan order, ends
    earlier, and ends before [b] starts. *)
Definition accepted_before (a b : TextEntity) : Prop :=
  key_le a b /\ (end_ a < end_ b)%Z /\ (end_ a <= start b)%Z.

(** The spans of [a] and [c] share a position. *)
Definition overlaps (a c : TextEntity) : Prop :=
  (start c < end_ a /\ start a < end_ c)%Z.

(** The two tests of the loop that drop [c] when [a] was the last
    entity accepted: [a] comes first in the scan order, and [c] ends no
    later than [a] or starts before the end of [a]. *)
Definition dropped_for (a c : TextEntity) : Prop :=
  key_le a c /\ (end_ c <= end_ a \/ start c < end_ a)%Z.

(** The same two tests before anything was accepted, against the
    initial [last_end = -1]. *)
Definition dropped_at_once (c : TextEntity) : Prop :=
  (end_ c <= -1 \/ start c < -1)%Z.

End DedupView.

Import DedupView.

(* ================================================================== *)
(** ** Image boxes and mapping records *)
(* ================================================================== *)

Module ImageView.


(** The record stored for an entity redacted at clock reading [tick]. *)
Definition entry_of (utcnow : nat -> str) (e : Entity) (b : Box) (tick : nat)
  : ImageRedactor.MappingEntry :=
  ImageRedactor.mkEntry (placeholder e) (type e) b (confidence e)
    (utcnow tick) (lit "image") (original_text e) (metadata e).

End ImageView.

Import ImageView.

(* ================================================================== *)
(** ** redactor/detector.py: PIIDetector.detect *)
(* ================================================================== *)

Module PIIDetectorRun.

Definition DEFAULT_LABELS : list str :=
  map lit ["PERSON"; "ORG"; "GPE"; "DATE"; "CARDINAL"; "NORP";
           "LOC"; "MONEY"; "TIME"; "FAC"; "EVENT"; "PRODUCT";
           "LAW"; "LANGUAGE"; "WORK_OF_ART"]%string.

Definition EMAIL_REGEX : str :=
  lit "[A-Za-z0-9._%+-]+@[A-Za-z0-9.-]+\.[A-Za-z]{2,}".

(** What the code reads off a regex match: [group(0)], [start()],
    [end()]. *)
Record Match : Type := mkMatch {
  group0 : str;
  match_start : Z;
  match_end : Z
}.

(** What the code reads off a spaCy entity span. *)
Record Span : Type := mkSpan {
  span_text : str;
  label_ : str;
  start_char : Z;
  end_char : Z
}.

Section WithBackends.

(** [re.finditer(pattern, text)], and [self.nlp]: [None] when the model
    failed to load, else the entities [doc.ents] of [self.nlp(text)]. *)
Variable finditer : str -> str -> list Match.
Variable nlp : option (str -> list Span).

Definition _find_emails (text : str) : list TextEntity :=
  map (fun m => mkTextEntity (group0 m) (lit "EMAIL") (match_start m) (match_end m))
      (finditer EMAIL_REGEX text).

Definition detect (text : str) : list TextEntity :=
  match nlp with
  | None => []
  | Some run_nlp =>
      let supported_labels := DEFAULT_LABELS ++ [lit "EMAIL"] in
      let spacy_entities :=
        map (fun ent => mkTextEntity (span_text ent) (label_ ent)
                          (start_char ent) (end_char ent))
            (filter (fun ent => mem (label_ ent) supported_labels)
                    (run_nlp text)) in
      let regex_emails := _find_emails text in
      let all_entities := spacy_entities ++ regex_emails in
      PIIDetector._deduplicate_and_sort_entities all_entities
  end.

End WithBackends.

(** The contract of the two backends on a text: a regex match and an
    entity span are non-empty spans of the text, with the text of the
    span as their group or text. *)
Definition match_in (T : str) (m : Match) : Prop :=
  (0 <= match_start m < match_end m)%Z /\
  (match_end m <= Z.of_nat (length T))%Z /\
  group0 m = slice T (match_start m) (match_end m).

Definition span_in (T : str) (s : Span) : Prop :=
  (0 <= start_char s < end_char s)%Z /\
  (end_char s <= Z.of_nat (length T))%Z /\
  span_text s = slice T (start_char s) (end_char s).

End PIIDetectorRun.

(* ================================================================== *)
(** ** redactor/image/detector.py: ImageDetector.detect *)
(* ================================================================== *)

(** The [DetectionMetadata] dataclass. *)
Record DetectionMetadata : Type := mkDetectionMetadata {
  total_entities : nat;
  entities_by_type : dict nat;
  detection_time : Q;
  gpu_used : bool;
  model_info : dict str
}.

Module ImageDetectorRun.

(** [entities_by_type[entity.type] = entities_by_type.get(entity.type, 0) + 1] *)
Definition count_step (entities_by_type : dict nat) (e : Entity) : dict nat :=
  dict_set (type e)
           (match dict_get entities_by_type (type e) with
            | Some n => n
            | None => 0
            end + 1)
           entities_by_type.

(** [detect] once the three detection methods have returned [faces],
    [texts] and [objects] and the clock gave [detection_time]. *)
Definition detect (use_gpu : bool) (face_model : str) (ocr_reader_loaded : bool)
    (enable_object_detection : bool)
    (faces texts objects : list Entity) (detection_time : Q)
  : list Entity * DetectionMetadata :=
  let all_entities := faces ++ texts ++ objects in
  let entities_by_type := fold_left count_step all_entities [] in
  (all_entities,
   mkDetectionMetadata (length all_entities) entities_by_type detection_time
     use_gpu
     [(lit "face_detection", face_model);
      (lit "ocr", if ocr_reader_loaded then lit "easyocr" else lit "disabled");
      (lit "object_detection",
       if enable_object_detection then lit "yolov8n" else lit "disabled")]).

End ImageDetectorRun.

(* ================================================================== *)
(** ** Notions for the further properties *)
(* ================================================================== *)

Module MoreViews.

(** A list the deduplication loop accepts whole: each entity ends after
    and starts at or after the end of the one before, the first with
    respect to [last_end]. *)
Fixpoint accepted_run (last_end : Z) (l : list TextEntity) : Prop :=
  match l with
  | [] => True
  | e :: l' =>
      (last_end < end_ e)%Z /\ (last_end <= start e)%Z /\ accepted_run (end_ e) l'
  end.

(** The state of the scan: nothing accepted yet, or the end of an
    accepted entity that starts no later than what is still to come. *)
Definition scan_state (acc rest : list TextEntity) (last_end : Z) : Prop :=
  last_end = (-1)%Z \/
  exists a, In a acc /\ end_ a = last_end /\ Forall (start_le a) rest.

(** A candidate with a non-empty span at a non-negative offset. *)
Definition proper (e : TextEntity) : Prop := (0 <= start e < end_ e)%Z.

(** [a] covers the start of [c]. *)
Definition covers_start (a c : TextEntity) : Prop :=
  (start a <= start c < end_ a)%Z.

(** How many entities of the list have the type. *)
Definition count_type (t : str) (l : list Entity) : nat :=
  length (filter (fun e => str_eqb (type e) t) l).

Definition record_key (r : Restorer.LogRecord) : str :=
  match r with
  | Restorer.InfoRestoring k _ => k
  | Restorer.WarningNotFound k => k
  end.

End MoreViews.

Import MoreViews.

(* ================================================================== *)
(** ** Notions for the further properties of the image pipeline *)
(* ================================================================== *)

Module ImageMoreViews.

(** The face entity with the [i]-th identifier of the text redactor's
    encoding, counting from zero. *)
Definition face_of (face_model : str) (i : nat) (loc : Z * Z * Z * Z) : Entity :=
  let '(top, right_, bottom, left_) := loc in
  mkEntity (lit "FACE")
           (Redactor.placeholder_of (lit "FACE")
                                    (Redactor._generate_placeholder_id i))
           (99 # 100) (lit "image") None (Some (left_, top, right_, bottom)) None
           [(lit "detection_method", face_model)].

Definition has_bbox (e : Entity) : bool :=
  match bbox e with
  | Some _ => true
  | None => false
  end.

(** Two states of the image redactor's loop that differ at most in the
    log. *)
Definition same_result {Image : Type} (s s' : ImageRedactor.state Image) : Prop :=
  ImageRedactor.redacted_image s = ImageRedactor.redacted_image s' /\
  ImageRedactor.mapping s = ImageRedactor.mapping s' /\
  ImageRedactor.clock s = ImageRedactor.clock s'.

(** The box is wide and high enough for the label. *)
Definition legible (b : Box) : Prop :=
  let '(x1, y1, x2, y2) := b in (10 <= x2 - x1 /\ 10 <= y2 - y1)%Z.

Definition center (b : Box) : Q * Q :=
  let '(x1, y1, x2, y2) := b in (((x1 + x2)%Z # 2), ((y1 + y2)%Z # 2)).


End ImageMoreViews.

Import ImageMoreViews.

(* ================================================================== *)
(** * Properties *)
(* ================================================================== *)

(** ** Strings and dictionaries *)

Module PyFacts.

Lemma str_eqb_eq (a b : str) : str_eqb a b = true <-> a = b.
Proof.
  revert b; induction a as [|x a IH]; intros [|y b]; simpl;
    try (split; (discriminate || reflexivity)).
  rewrite andb_true_iff, Ascii.eqb_eq, IH.
  split; [intros [-> ->]; reflexivity | intros [= -> ->]; auto].
Qed.

Lemma str_eqb_refl (a : str) : str_eqb a a = true.
Proof. now apply str_eqb_eq. Qed.

Lemma str_eqb_neq (a b : str) : str_eqb a b = false <-> a <> b.
Proof.
  rewrite <- str_eqb_eq. destruct (str_eqb a b); split; congruence.
Qed.

Lemma mem_In (x : str) (xs : list str) : mem x xs = true <-> In x xs.
Proof.
  unfold mem. rewrite existsb_exists. split.
  - intros (y & Hy & E). apply str_eqb_eq in E. now subst.
  - intros H. exists x. split; [assumption | apply str_eqb_refl].
Qed.

Lemma startswith_iff (p s : str) :
  startswith p s = true <-> exists r, s = p ++ r.
Proof.
  revert s; induction p as [|x p IH]; intros s; simpl.
  - split; [intros _; now exists s | reflexivity].
  - destruct s as [|y s].
    + split; [discriminate | intros (r & E); discriminate].
    + rewrite andb_true_iff, Ascii.eqb_eq, IH. split.
      * intros (-> & r & ->). now exists r.
      * intros (r & [= -> ->]). split; [reflexivity | now exists r].
Qed.

Lemma startswith_app (p r : str) : startswith p (p ++ r) = true.
Proof. apply startswith_iff. now exists r. Qed.

Lemma replace_from_skip (old new x s : str) :
  replace_from old new (length x) (x ++ s) = replace_from old new 0 s.
Proof. induction x as [|c x IH]; simpl; [reflexivity | exact IH]. Qed.

(** The two equations of the scan, for a non-empty pattern. *)
Lemma replace_here (old new s : str) :
  old <> [] -> replace old new (old ++ s) = new ++ replace old new s.
Proof.
  destruct old as [|c old]; [congruence | intros _].
  pose proof (startswith_app (c :: old) s) as E.
  unfold replace. rewrite <- app_comm_cons in *.
  cbn [replace_from]. rewrite E. f_equal.
  replace (length (c :: old) - 1) with (length old) by (simpl; lia).
  apply replace_from_skip.
Qed.

Lemma replace_next (old new : str) (c : ascii) (s : str) :
  old <> [] -> startswith old (c :: s) = false ->
  replace old new (c :: s) = c :: replace old new s.
Proof.
  destruct old as [|d old]; [congruence | intros _ H].
  unfold replace. cbn [replace_from]. now rewrite H.
Qed.

Lemma replace_nil (old new : str) : old <> [] -> replace old new [] = [].
Proof. destruct old; [congruence | reflexivity]. Qed.

Lemma contains_nil_l (s : str) : contains [] s = true.
Proof. destruct s; reflexivity. Qed.

Lemma contains_iff (p s : str) :
  contains p s = true <-> exists a b, s = a ++ p ++ b.
Proof.
  induction s as [|c s IH]; simpl.
  - rewrite orb_false_r, startswith_iff. split.
    + intros (r & E). now exists [], r.
    + intros (a & b & E). destruct a; [now exists b | discriminate].
  - rewrite orb_true_iff, startswith_iff, IH. split.
    + intros [(r & E) | (a & b & E)].
      * now exists [], r.
      * exists (c :: a), b. now rewrite E.
    + intros (a & b & E). destruct a as [|x a].
      * left. now exists b.
      * right. injection E as -> ->. now exists a, b.
Qed.

(** The membership test of the restorer's loop only skips a
    replacement that would change nothing. *)
Lemma replace_absent (old new s : str) :
  contains old s = false -> replace old new s = s.
Proof.
  intros H. assert (Hne : old <> []).
  { intros ->. now rewrite contains_nil_l in H. }
  induction s as [|c s IH].
  - now apply replace_nil.
  - simpl in H. apply orb_false_iff in H as [H1 H2].
    rewrite replace_next by assumption. now rewrite IH.
Qed.

Lemma dict_get_set_same {V : Type} (k : str) (v : V) (d : dict V) :
  dict_get (dict_set k v d) k = Some v.
Proof.
  induction d as [|[k' v'] d IH]; simpl.
  - now rewrite str_eqb_refl.
  - destruct (str_eqb k k') eqn:E; simpl; rewrite ?str_eqb_refl, ?E; auto.
Qed.

Lemma dict_get_set_other {V : Type} (k k0 : str) (v : V) (d : dict V) :
  k0 <> k -> dict_get (dict_set k v d) k0 = dict_get d k0.
Proof.
  intros Hne. induction d as [|[k' v'] d IH]; simpl.
  - apply str_eqb_neq in Hne. now rewrite Hne.
  - destruct (str_eqb k k') eqn:E; simpl.
    + apply str_eqb_eq in E. subst k'.
      apply str_eqb_neq in Hne. now rewrite Hne.
    + now rewrite IH.
Qed.

Lemma dict_set_fresh {V : Type} (k : str) (v : V) (d : dict V) :
  ~ In k (keys d) -> dict_set k v d = d ++ [(k, v)].
Proof.
  induction d as [|[k' v'] d IH]; simpl; intros H; [reflexivity|].
  destruct (str_eqb k k') eqn:E.
  - apply str_eqb_eq in E. subst. tauto.
  - rewrite IH; tauto.
Qed.


Lemma keys_dict_set_incl {V : Type} (k k0 : str) (v : V) (d : dict V) :
  In k0 (keys (dict_set k v d)) <-> k0 = k \/ In k0 (keys d).
Proof.
  induction d as [|[k' v'] d IH]; simpl.
  - intuition.
  - destruct (str_eqb k k') eqn:E; simpl.
    + apply str_eqb_eq in E. subst k'. intuition.
    + rewrite IH. intuition.
Qed.

Lemma keys_dict_set_NoDup {V : Type} (k : str) (v : V) (d : dict V) :
  NoDup (keys d) -> NoDup (keys (dict_set k v d)).
Proof.
  induction d as [|[k' v'] d IH]; simpl; intros H.
  - constructor; [tauto | constructor].
  - inversion H as [|? ? Hn Hd]; subst.
    destruct (str_eqb k k') eqn:E; simpl.
    + apply str_eqb_eq in E. subst k'. now constructor.
    + constructor; [|auto].
      intros Hin. apply keys_dict_set_incl in Hin as [->|Hin]; [|tauto].
      now rewrite str_eqb_refl in E.
Qed.

End PyFacts.

Import PyFacts.

(** ** Bracketed tokens and whole-string substitution *)

Module ShapeFacts.

Lemma has_char_In (c : ascii) (s : str) : has_char c s = true <-> In c s.
Proof.
  unfold has_char. rewrite existsb_exists. split.
  - intros (x & Hx & E). apply Ascii.eqb_eq in E. now subst.
  - intros H. exists c. split; [assumption | apply Ascii.eqb_refl].
Qed.

Lemma has_char_false (c : ascii) (s : str) : has_char c s = false <-> ~ In c s.
Proof.
  rewrite <- has_char_In. destruct (has_char c s); split; congruence.
Qed.

Lemma bracketedb_true (p : str) : bracketedb p = true -> bracketed p.
Proof.
  destruct p as [|c rest]; simpl; [discriminate|].
  destruct (List.rev rest) as [|d ydob] eqn:E; rewrite ?andb_false_r; [discriminate|].
  rewrite !andb_true_iff, !negb_true_iff, !Ascii.eqb_eq, !has_char_false.
  intros (-> & (-> & H1) & H2).
  exists (List.rev ydob). apply (f_equal (@List.rev ascii)) in E.
  rewrite rev_involutive in E. simpl in E. subst rest.
  repeat split; auto; rewrite <- in_rev; assumption.
Qed.

Lemma bracketed_not_nil (p : str) : bracketed p -> p <> [].
Proof. intros (b & -> & _). discriminate. Qed.

Lemma first_occurrence (x : ascii) (a b r1 r2 : str) :
  ~ In x a -> ~ In x b -> a ++ x :: r1 = b ++ x :: r2 -> a = b /\ r1 = r2.
Proof.
  revert b; induction a as [|c a IH]; intros [|d b] Ha Hb E; simpl in *.
  - injection E as ->. auto.
  - injection E as -> _. tauto.
  - injection E as -> _. tauto.
  - injection E as -> E. destruct (IH b) as [-> ->]; auto.
Qed.

(** Two bracketed tokens that start at the same place are the same
    token. *)
Lemma bracketed_prefix (p q r1 r2 : str) :
  bracketed p -> bracketed q -> q ++ r1 = p ++ r2 -> p = q /\ r1 = r2.
Proof.
  intros (bp & -> & _ & Hp) (bq & -> & _ & Hq) E.
  simpl in E. injection E as E. rewrite <- !app_assoc in E. simpl in E.
  apply first_occurrence in E as [-> ->]; auto.
Qed.

(** A bracketed pattern never matches inside bracket-free text. *)
Lemma replace_gap (p v g s : str) :
  bracketed p -> ~ In lbr g -> replace p v (g ++ s) = g ++ replace p v s.
Proof.
  intros Hp Hg. induction g as [|c g IH]; cbn [app]; [reflexivity|].
  rewrite replace_next.
  - rewrite IH; [reflexivity | intros H; apply Hg; now right].
  - now apply bracketed_not_nil.
  - destruct Hp as (b & -> & _). cbn [startswith app].
    destruct (Ascii.eqb lbr c) eqn:E; [|reflexivity].
    apply Ascii.eqb_eq in E. subst c. exfalso. apply Hg. now left.
Qed.

Lemma replace_gap_only (p v g : str) :
  bracketed p -> ~ In lbr g -> replace p v g = g.
Proof.
  intros Hp Hg. rewrite <- (app_nil_r g) at 1.
  rewrite replace_gap by assumption.
  rewrite replace_nil by now apply bracketed_not_nil.
  apply app_nil_r.
Qed.

(** An occurrence of a bracketed pattern cannot run into the opening
    bracket of a later token. *)
Lemma no_straddle (p q A B r : str) :
  bracketed p -> bracketed q -> A <> [] ->
  A ++ q ++ B = p ++ r -> exists A', A = p ++ A'.
Proof.
  intros (bp & -> & Hl & _) (bq & -> & _ & _) HA E.
  apply app_eq_app in E as (l & [[E1 E2] | [E1 E2]]).
  - now exists l.
  - destruct l as [|x l].
    + exists []. now rewrite app_nil_r in *.
    + exfalso. simpl in E2. injection E2 as <- _.
      destruct A as [|a A]; [congruence|].
      simpl in E1. injection E1 as _ E1.
      assert (Hin : In lbr (bp ++ [rbr])).
      { rewrite E1. apply in_or_app. right. now left. }
      apply in_app_or in Hin as [Hin | [Hin | []]]; [tauto | discriminate].
Qed.

(** Whole-string substitution of a bracketed placeholder acts on each
    side of any bracketed token separately, and on the token itself
    only if it is the placeholder. *)
Lemma replace_around_token (p v q A B : str) :
  bracketed p -> bracketed q ->
  replace p v (A ++ q ++ B) =
    replace p v A ++ (if str_eqb p q then v else q) ++ replace p v B.
Proof.
  intros Hp Hq. pose proof (bracketed_not_nil p Hp) as Hne.
  remember (length A) as n eqn:Hn. revert A Hn.
  induction n as [n IH] using lt_wf_ind. intros A Hn.
  destruct A as [|c A].
  - cbn [app]. rewrite replace_nil by assumption. cbn [app].
    destruct (str_eqb p q) eqn:E.
    + apply str_eqb_eq in E. subst q. now apply replace_here.
    + apply str_eqb_neq in E.
      destruct Hq as (bq & Eq & Hl & Hr).
      assert (Hs : startswith p (q ++ B) = false).
      { destruct (startswith p (q ++ B)) eqn:S; [|reflexivity].
        apply startswith_iff in S as (r & S).
        apply bracketed_prefix in S as [S _]; auto.
        - congruence.
        - now exists bq. }
      subst q. cbn [app] in *. rewrite replace_next by assumption.
      rewrite (replace_gap p v (bq ++ [rbr]) B); [reflexivity | assumption |].
      intros Hin. apply in_app_or in Hin as [Hin | [Hin | []]];
        [tauto | discriminate].
  - destruct (startswith p ((c :: A) ++ q ++ B)) eqn:S.
    + apply startswith_iff in S as (r & S).
      destruct (no_straddle p q (c :: A) B r) as (A' & EA); auto;
        [discriminate|].
      rewrite EA, <- app_assoc, !replace_here by assumption.
      rewrite <- app_assoc. f_equal.
      apply (IH (length A')); [|reflexivity].
      subst n. rewrite EA, length_app.
      destruct p; [congruence | simpl; lia].
    + cbn [app] in *. rewrite !replace_next; try assumption.
      * cbn [app]. f_equal. apply (IH (length A)); [|reflexivity].
        subst n. simpl. lia.
      * destruct (startswith p (c :: A)) eqn:S'; [|reflexivity].
        apply startswith_iff in S' as (r & S').
        assert (S2 : startswith p (c :: A ++ q ++ B) = true).
        { apply startswith_iff. exists (r ++ q ++ B).
          change (c :: A ++ q ++ B) with ((c :: A) ++ q ++ B).
          rewrite S', <- app_assoc. reflexivity. }
        congruence.
Qed.

Lemma replace_at_token (p v q B : str) :
  bracketed p -> bracketed q ->
  replace p v (q ++ B) = (if str_eqb p q then v else q) ++ replace p v B.
Proof.
  intros Hp Hq. pose proof (replace_around_token p v q [] B Hp Hq) as H.
  rewrite replace_nil in H by now apply bracketed_not_nil.
  exact H.
Qed.

Lemma replace_flatten (p v : str) (its : list piece) :
  bracketed p -> Forall piece_ok its ->
  replace p v (flatten its) = flatten (subst1 p v its).
Proof.
  intros Hp Hits. unfold flatten, subst1.
  induction Hits as [|it its Hit _ IH].
  - simpl. now apply replace_nil, bracketed_not_nil.
  - destruct it as [g | q]; cbn [flat_map map piece_text].
    + rewrite replace_gap by assumption. now rewrite IH.
    + simpl in Hit.
      rewrite replace_at_token by assumption. rewrite IH.
      destruct (str_eqb p q) eqn:E.
      * apply str_eqb_eq in E. subst. now rewrite str_eqb_refl.
      * destruct (str_eqb q p) eqn:E'; [|reflexivity].
        apply str_eqb_eq in E'. subst.
        now rewrite str_eqb_refl in E.
Qed.

Lemma subst1_ok (p v : str) (its : list piece) :
  ~ In lbr v -> Forall piece_ok its -> Forall piece_ok (subst1 p v its).
Proof.
  intros Hv Hits. induction Hits as [|it its Hit _ IH]; simpl;
    constructor; auto.
  destruct it as [g | q]; [assumption|].
  destruct (str_eqb q p); assumption.
Qed.

Lemma subst1_app (p v : str) (a b : list piece) :
  subst1 p v (a ++ b) = subst1 p v a ++ subst1 p v b.
Proof. apply map_app. Qed.

Lemma flatten_app (a b : list piece) : flatten (a ++ b) = flatten a ++ flatten b.
Proof. apply flat_map_app. Qed.

End ShapeFacts.

Import ShapeFacts.

(** ** Restorer.restore as a fold of substitutions *)

Module RestorerFacts.

Import Restorer.

Lemma restore_step_text (t : str) (log : list LogRecord) (k v : str) :
  fst (restore_step (t, log) (k, v)) = replace k v t.
Proof.
  unfold restore_step. destruct (contains k t) eqn:E; simpl.
  - reflexivity.
  - symmetry. now apply replace_absent.
Qed.

Lemma fold_restore_step_text (m : dict str) (t : str) (log : list LogRecord) :
  fst (fold_left restore_step m (t, log)) =
  fold_left (fun t kv => replace (fst kv) (snd kv) t) m t.
Proof.
  revert t log; induction m as [|[k v] m IH]; intros t log; [reflexivity|].
  cbn [fold_left]. pose proof (restore_step_text t log k v) as H.
  destruct (restore_step (t, log) (k, v)) as [t' log'].
  simpl in H. subst t'. apply IH.
Qed.

Lemma restore_fold (t : str) (m : dict str) :
  restore t m = fold_left (fun t kv => replace (fst kv) (snd kv) t) m t.
Proof. apply fold_restore_step_text. Qed.

Lemma restore_nil (t : str) : restore t [] = t.
Proof. reflexivity. Qed.

Lemma restore_cons (t k v : str) (m : dict str) :
  restore t ((k, v) :: m) = restore (replace k v t) m.
Proof. now rewrite !restore_fold. Qed.

Lemma restore_app (t : str) (m1 m2 : dict str) :
  restore t (m1 ++ m2) = restore (restore t m1) m2.
Proof. rewrite !restore_fold. apply fold_left_app. Qed.

(** The log grows by one record per entry, whatever it held before. *)
Lemma fold_restore_step_log (m : dict str) (t : str) (log : list LogRecord) :
  snd (fold_left restore_step m (t, log)) =
  log ++ snd (fold_left restore_step m (t, [])).
Proof.
  revert t log; induction m as [|[k v] m IH]; intros t log.
  - simpl. now rewrite app_nil_r.
  - cbn [fold_left]. unfold restore_step at 2 4.
    destruct (contains k t); rewrite IH; symmetry; rewrite IH;
      now rewrite app_assoc.
Qed.

Lemma restore_run_app (t : str) (m1 m2 : dict str) :
  restore_run t (m1 ++ m2) =
  (restore (restore t m1) m2,
   snd (restore_run t m1) ++ snd (restore_run (restore t m1) m2)).
Proof.
  unfold restore_run, restore, restore_run. rewrite fold_left_app.
  destruct (fold_left restore_step m1 (t, [])) as [t1 log1]. simpl.
  rewrite (surjective_pairing (fold_left restore_step m2 (t1, log1))).
  f_equal.
  - now rewrite !fold_restore_step_text.
  - apply fold_restore_step_log.
Qed.

(** A bracketed token that is no key stays where it is, and the text
    on each side of it is restored on its own. *)
Lemma restore_around_unmapped (m : dict str) (A q B : str) :
  Forall bracketed (keys m) -> bracketed q -> ~ In q (keys m) ->
  restore (A ++ q ++ B) m = restore A m ++ q ++ restore B m.
Proof.
  revert A B; induction m as [|[k v] m IH]; intros A B Hk Hq Hn.
  - reflexivity.
  - simpl in Hk, Hn. inversion Hk as [|? ? Hk1 Hk2]; subst.
    rewrite !restore_cons, replace_around_token by assumption.
    destruct (str_eqb k q) eqn:E.
    + apply str_eqb_eq in E. tauto.
    + apply IH; tauto.
Qed.

Lemma subst_all_cons (k v : str) (m : dict str) (its : list piece) :
  subst_all ((k, v) :: m) its = subst_all m (subst1 k v its).
Proof.
  unfold subst_all, subst1. rewrite map_map. apply map_ext.
  intros [g | p]; [reflexivity|]. simpl.
  destruct (str_eqb p k); reflexivity.
Qed.

(** On a text made of bracket-free stretches and bracketed tokens, with
    original values that hold no opening bracket, the loop of
    whole-string substitutions is the token-wise substitution. *)
Lemma restore_flatten (m : dict str) (its : list piece) :
  Forall bracketed (keys m) ->
  Forall (fun v => ~ In lbr v) (values m) ->
  Forall piece_ok its ->
  restore (flatten its) m = flatten (subst_all m its).
Proof.
  revert its; induction m as [|[k v] m IH]; intros its Hk Hv Hits.
  - rewrite restore_nil. unfold subst_all. f_equal.
    rewrite <- (map_id its) at 1. apply map_ext. now intros [g | p].
  - simpl in Hk, Hv.
    inversion Hk as [|? ? Hk1 Hk2]; inversion Hv as [|? ? Hv1 Hv2]; subst.
    rewrite restore_cons, replace_flatten, subst_all_cons by assumption.
    apply IH; auto. now apply subst1_ok.
Qed.

End RestorerFacts.

Import RestorerFacts.

(** ** Placeholder identifiers *)

Module IdFacts.

Import Redactor.

Definition is_digit (c : ascii) : Prop := 48 <= nat_of_ascii c <= 57.

(** Evaluate the code of a concrete character in the goal. *)
Ltac code_of_char :=
  repeat match goal with
         | |- context [nat_of_ascii ?c] =>
             let n := eval vm_compute in (nat_of_ascii c) in
             change (nat_of_ascii c) with n
         end.

Lemma string_of_uint_digits (d : Decimal.uint) (c : ascii) :
  In c (lit (DecimalString.NilEmpty.string_of_uint d)) -> is_digit c.
Proof.
  induction d; cbn [DecimalString.NilEmpty.string_of_uint lit
                    list_ascii_of_string In]; try tauto;
    (intros [<- | H]; [unfold is_digit; code_of_char; lia | auto]).
Qed.

Lemma lit_inj (a b : string) : lit a = lit b -> a = b.
Proof.
  unfold lit. intros H.
  rewrite <- (string_of_list_ascii_of_string a),
          <- (string_of_list_ascii_of_string b).
  now rewrite H.
Qed.

Lemma str_of_nat_inj (n m : nat) : str_of_nat n = str_of_nat m -> n = m.
Proof.
  unfold str_of_nat. intros H. apply lit_inj in H.
  apply (f_equal DecimalString.NilEmpty.uint_of_string) in H.
  rewrite !DecimalString.NilEmpty.usu in H. injection H as H.
  apply (f_equal Nat.of_uint) in H.
  now rewrite !DecimalNat.Unsigned.of_to in H.
Qed.

Lemma letter_code (n : nat) :
  n < 26 -> nat_of_ascii (ascii_of_nat (ord "A"%char + n)) = 65 + n.
Proof.
  intros H. change (ord "A"%char) with 65.
  apply nat_ascii_embedding. lia.
Qed.

(** Every character of an identifier is a capital letter or a digit. *)
Lemma id_chars (n : nat) (c : ascii) :
  In c (_generate_placeholder_id n) -> 48 <= nat_of_ascii c <= 90.
Proof.
  unfold _generate_placeholder_id. destruct (n <? 26) eqn:E.
  - apply Nat.ltb_lt in E. intros [<- | []]. rewrite letter_code; lia.
  - intros H. apply string_of_uint_digits in H. unfold is_digit in H. lia.
Qed.

Lemma id_no_char (n : nat) (c : ascii) :
  90 < nat_of_ascii c -> ~ In c (_generate_placeholder_id n).
Proof. intros H Hin. apply id_chars in Hin. lia. Qed.

Lemma id_inj (n m : nat) :
  _generate_placeholder_id n = _generate_placeholder_id m -> n = m.
Proof.
  unfold _generate_placeholder_id.
  destruct (n <? 26) eqn:En, (m <? 26) eqn:Em; intros H.
  - apply Nat.ltb_lt in En, Em.
    apply (f_equal (fun s => map nat_of_ascii s)) in H.
    cbn [map] in H. rewrite !letter_code in H by assumption.
    injection H as H. lia.
  - apply Nat.ltb_lt in En.
    assert (Hd : is_digit (ascii_of_nat (ord "A"%char + n))).
    { apply (string_of_uint_digits (Nat.to_uint m)).
      fold (str_of_nat m). rewrite <- H. now left. }
    unfold is_digit in Hd. rewrite letter_code in Hd; lia.
  - apply Nat.ltb_lt in Em.
    assert (Hd : is_digit (ascii_of_nat (ord "A"%char + m))).
    { apply (string_of_uint_digits (Nat.to_uint n)).
      fold (str_of_nat n). rewrite H. now left. }
    unfold is_digit in Hd. rewrite letter_code in Hd; lia.
  - now apply str_of_nat_inj.
Qed.

Lemma last_occurrence (x : ascii) (a b r1 r2 : str) :
  ~ In x r1 -> ~ In x r2 -> a ++ x :: r1 = b ++ x :: r2 -> a = b /\ r1 = r2.
Proof.
  intros H1 H2 E. apply (f_equal (@List.rev ascii)) in E.
  rewrite !rev_app_distr in E. simpl in E. rewrite <- !app_assoc in E.
  simpl in E. apply first_occurrence in E as [E1 E2];
    try (rewrite <- in_rev; assumption).
  apply (f_equal (@List.rev ascii)) in E1, E2.
  rewrite !rev_involutive in E1, E2. auto.
Qed.

Lemma placeholder_of_eq (l i : str) :
  placeholder_of l i = lbr :: (l ++ underscore :: i) ++ [rbr].
Proof.
  unfold placeholder_of. cbn [lit list_ascii_of_string app].
  now rewrite <- app_assoc.
Qed.

(** The label and the identifier can be read back off a placeholder. *)
Lemma placeholder_of_inj (l1 l2 : str) (n1 n2 : nat) :
  placeholder_of l1 (_generate_placeholder_id n1) =
  placeholder_of l2 (_generate_placeholder_id n2) ->
  l1 = l2 /\ n1 = n2.
Proof.
  rewrite !placeholder_of_eq. intros H.
  assert (H' : l1 ++ underscore :: _generate_placeholder_id n1 =
               l2 ++ underscore :: _generate_placeholder_id n2).
  { apply (app_inv_tail [rbr]). congruence. }
  apply last_occurrence in H' as [-> H'].
  - split; [reflexivity | now apply id_inj].
  - apply id_no_char. code_of_char. lia.
  - apply id_no_char. code_of_char. lia.
Qed.

Lemma placeholder_of_bracketed (l : str) (n : nat) :
  bracket_free l -> bracketed (placeholder_of l (_generate_placeholder_id n)).
Proof.
  intros [Hl Hr]. exists (l ++ underscore :: _generate_placeholder_id n).
  split; [|split].
  - apply placeholder_of_eq.
  - intros H. apply in_app_or in H as [H | [H | H]];
      [tauto | discriminate | revert H; apply id_no_char; code_of_char; lia].
  - intros H. apply in_app_or in H as [H | [H | H]];
      [tauto | discriminate | revert H; apply id_no_char; code_of_char; lia].
Qed.

End IdFacts.

Import IdFacts.

(** ** The stable sort *)

Module SortFacts.

Section Sorted.

Context {A : Type} (before : A -> A -> bool).

(** [a] does not come after [b]. *)
Definition not_after (a b : A) : Prop := before b a = false.

Hypothesis before_asym : forall a b, before a b = true -> before b a = false.
Hypothesis not_after_trans :
  forall a b c, not_after a b -> not_after b c -> not_after a c.

Lemma insert_sorted_perm (x : A) (l : list A) :
  Permutation (insert_sorted before x l) (x :: l).
Proof.
  induction l as [|y l IH]; simpl; [reflexivity|].
  destruct (before y x); [|reflexivity].
  rewrite IH. apply perm_swap.
Qed.

Lemma sorted_perm (l : list A) : Permutation (sorted before l) l.
Proof.
  induction l as [|x l IH]; simpl; [reflexivity|].
  rewrite insert_sorted_perm. now constructor.
Qed.

Lemma insert_sorted_sorted (x : A) (l : list A) :
  StronglySorted not_after l ->
  StronglySorted not_after (insert_sorted before x l).
Proof.
  induction 1 as [|y l Hs IH Hy]; simpl.
  - constructor; constructor.
  - destruct (before y x) eqn:E.
    + constructor; [assumption|].
      apply (Permutation_Forall (Permutation_sym (insert_sorted_perm x l))).
      constructor; [now apply before_asym | assumption].
    + constructor; [now constructor|].
      constructor; [exact E|].
      eapply Forall_impl; [|exact Hy].
      intros z Hz. now apply (not_after_trans x y z).
Qed.

Lemma sorted_sorted (l : list A) : StronglySorted not_after (sorted before l).
Proof.
  induction l as [|x l IH]; simpl; [constructor|].
  now apply insert_sorted_sorted.
Qed.

End Sorted.

Lemma StronglySorted_impl {A : Type} (R S : A -> A -> Prop) (l : list A) :
  (forall a b, R a b -> S a b) -> StronglySorted R l -> StronglySorted S l.
Proof.
  intros HRS. induction 1 as [|x l Hs IH Hx]; constructor; auto.
  eapply Forall_impl; [|exact Hx]. auto.
Qed.

Lemma sorted_desc_perm (l : list TextEntity) :
  Permutation (Redactor.sorted_desc l) l.
Proof. apply sorted_perm. Qed.

Lemma sorted_desc_descending (l : list TextEntity) :
  descending (Redactor.sorted_desc l).
Proof.
  unfold descending, Redactor.sorted_desc.
  eapply StronglySorted_impl; [|apply sorted_sorted].
  - intros a b. unfold not_after, Redactor.start_gt. lia.
  - intros a b. unfold Redactor.start_gt. lia.
  - intros a b c. unfold not_after, Redactor.start_gt. lia.
Qed.

End SortFacts.

Import SortFacts.

(** ** Slices at offsets inside the text *)

Module SliceFacts.

Lemma firstn_min {A : Type} (k : nat) (l : list A) :
  firstn (Nat.min k (length l)) l = firstn k l.
Proof.
  destruct (Nat.le_gt_cases k (length l)) as [H | H].
  - now rewrite Nat.min_l.
  - rewrite Nat.min_r, firstn_all, firstn_all2 by lia. reflexivity.
Qed.

Lemma skipn_min {A : Type} (k : nat) (l : list A) :
  skipn (Nat.min k (length l)) l = skipn k l.
Proof.
  destruct (Nat.le_gt_cases k (length l)) as [H | H].
  - now rewrite Nat.min_l.
  - rewrite Nat.min_r, skipn_all, skipn_all2 by lia. reflexivity.
Qed.

Lemma slice_index_nonneg (n : nat) (i : Z) :
  (0 <= i)%Z -> slice_index n i = Nat.min (Z.to_nat i) n.
Proof.
  intros H. unfold slice_index.
  destruct (i <? 0)%Z eqn:E; [lia | reflexivity].
Qed.

Lemma slice_to_nonneg (t : str) (i : Z) :
  (0 <= i)%Z -> slice_to t i = firstn (Z.to_nat i) t.
Proof.
  intros H. unfold slice_to. rewrite slice_index_nonneg by assumption.
  apply firstn_min.
Qed.

Lemma slice_from_nonneg (t : str) (i : Z) :
  (0 <= i)%Z -> slice_from t i = skipn (Z.to_nat i) t.
Proof.
  intros H. unfold slice_from. rewrite slice_index_nonneg by assumption.
  apply skipn_min.
Qed.

Lemma slice_nonneg (t : str) (i j : Z) :
  (0 <= i)%Z -> (0 <= j)%Z ->
  slice t i j = skipn (Z.to_nat i) (firstn (Z.to_nat j) t).
Proof.
  intros Hi Hj. unfold slice. rewrite !slice_index_nonneg by assumption.
  rewrite firstn_min.
  destruct (Nat.le_gt_cases (Z.to_nat i) (length t)) as [H | H].
  - now rewrite Nat.min_l.
  - rewrite Nat.min_r by lia.
    rewrite !skipn_all2; [reflexivity | |]; rewrite length_firstn; lia.
Qed.

Lemma slice_prefix (t : str) (b : Z) :
  (0 <= b)%Z -> slice t 0 b = firstn (Z.to_nat b) t.
Proof. intros H. rewrite slice_nonneg by lia. reflexivity. Qed.

Lemma slice_whole (t : str) : slice t 0 (Z.of_nat (length t)) = t.
Proof.
  rewrite slice_prefix by lia. rewrite Nat2Z.id. apply firstn_all.
Qed.

Lemma three_parts {A : Type} (l : list A) (s e b : nat) :
  s <= e <= b ->
  firstn s l ++ skipn s (firstn e l) ++ skipn e (firstn b l) = firstn b l.
Proof.
  intros H.
  assert (E1 : firstn s l = firstn s (firstn e l))
    by (rewrite firstn_firstn, Nat.min_l by lia; reflexivity).
  assert (E2 : firstn e l = firstn e (firstn b l))
    by (rewrite firstn_firstn, Nat.min_l by lia; reflexivity).
  rewrite E1, app_assoc, firstn_skipn, E2. apply firstn_skipn.
Qed.

Section Inside.

Variables (T R : str) (s e b : Z).
Hypothesis Hs : (0 <= s)%Z.
Hypothesis Hse : (s <= e)%Z.
Hypothesis Heb : (e <= b)%Z.
Hypothesis Hb : (b <= Z.of_nat (length T))%Z.

(** Left of a span the running text is still the original text. *)
Lemma slice_to_left : slice_to (slice T 0 b ++ R) s = slice T 0 s.
Proof.
  rewrite slice_to_nonneg, !slice_prefix by lia.
  rewrite firstn_app, length_firstn, firstn_firstn.
  replace (Z.to_nat s - Nat.min (Z.to_nat b) (length T)) with 0 by lia.
  rewrite Nat.min_l by lia. simpl. apply app_nil_r.
Qed.

Lemma slice_from_right :
  slice_from (slice T 0 b ++ R) e = slice T e b ++ R.
Proof.
  rewrite slice_from_nonneg, slice_prefix, slice_nonneg by lia.
  rewrite skipn_app, length_firstn.
  replace (Z.to_nat e - Nat.min (Z.to_nat b) (length T)) with 0 by lia.
  reflexivity.
Qed.

Lemma slice_join : slice T 0 s ++ slice T s e ++ slice T e b = slice T 0 b.
Proof.
  rewrite !slice_prefix, !slice_nonneg by lia.
  apply three_parts. lia.
Qed.

End Inside.

Lemma slice_no_char (c : ascii) (T : str) (i j : Z) :
  ~ In c T -> ~ In c (slice T i j).
Proof.
  intros H Hin. apply H. unfold slice in Hin.
  set (n := slice_index (length T) i) in *.
  set (m := slice_index (length T) j) in *.
  rewrite <- (firstn_skipn m T). apply in_or_app. left.
  rewrite <- (firstn_skipn n (firstn m T)). apply in_or_app. now right.
Qed.

End SliceFacts.

Import SliceFacts.

(** ** The loop of Redactor.redact *)

Module RedactorFacts.

Import Redactor.

Lemma count_same_snoc (l : str) (seen : list TextEntity) (e : TextEntity) :
  count_same l (seen ++ [e]) =
  count_same l seen + (if str_eqb (label e) l then 1 else 0).
Proof.
  unfold count_same. rewrite filter_app, length_app. simpl.
  destruct (str_eqb (label e) l); reflexivity.
Qed.

Lemma counts_ok_step (c : dict nat) (seen : list TextEntity) (e : TextEntity) :
  counts_ok c seen ->
  counts_ok (dict_set (label e) (count_of c (label e) + 1) c) (seen ++ [e]).
Proof.
  intros H l. rewrite count_same_snoc. unfold count_of at 1.
  destruct (str_eqb (label e) l) eqn:E.
  - apply str_eqb_eq in E. subst l.
    rewrite dict_get_set_same. now rewrite H.
  - apply str_eqb_neq in E. rewrite dict_get_set_other by congruence.
    fold (count_of c l). rewrite H. lia.
Qed.

Lemma counts_ok_nil : counts_ok [] [].
Proof. intros l. reflexivity. Qed.

(** The three components of the state after the loop. *)
Lemma fold_redact_step (es seen : list TextEntity) (st : state) :
  counts_ok (label_counts st) seen ->
  redacted_text (fold_left redact_step es st) =
    text_fold (redacted_text st) es (keys (numbered seen es)) /\
  placeholder_map (fold_left redact_step es st) =
    set_all (numbered seen es) (placeholder_map st) /\
  counts_ok (label_counts (fold_left redact_step es st)) (seen ++ es).
Proof.
  revert seen st; induction es as [|e es IH]; intros seen st H.
  - simpl. rewrite app_nil_r. auto.
  - pose proof (counts_ok_step _ _ e H) as H'.
    destruct (IH (seen ++ [e]) (redact_step st e) H') as (E1 & E2 & E3).
    set (p := placeholder_of (label e)
                (_generate_placeholder_id (count_same (label e) seen))).
    assert (Et : redacted_text (redact_step st e) =
                 text_step (redacted_text st) e p).
    { unfold redact_step, text_step, p. cbn [redacted_text].
      now rewrite (H (label e)). }
    assert (Em : placeholder_map (redact_step st e) =
                 dict_set p (entity e) (placeholder_map st)).
    { unfold redact_step, p. cbn [placeholder_map].
      now rewrite (H (label e)). }
    rewrite Et in E1. rewrite Em in E2. rewrite <- app_assoc in E3.
    cbn [fold_left]. repeat split; assumption.
Qed.

Lemma numbered_keys_form (seen es : list TextEntity) (k : str) :
  In k (keys (numbered seen es)) ->
  exists l n, k = placeholder_of l (_generate_placeholder_id n) /\
              count_same l seen <= n.
Proof.
  revert seen; induction es as [|e es IH]; simpl; intros seen; [tauto|].
  intros [<- | H].
  - exists (label e), (count_same (label e) seen). auto.
  - apply IH in H as (l & n & -> & Hn). exists l, n. split; [reflexivity|].
    rewrite count_same_snoc in Hn. lia.
Qed.

(** No placeholder is generated twice in a call. *)
Lemma numbered_keys_NoDup (seen es : list TextEntity) :
  NoDup (keys (numbered seen es)).
Proof.
  revert seen; induction es as [|e es IH]; intros seen; simpl; constructor.
  - intros H. apply numbered_keys_form in H as (l & n & E & Hn).
    apply placeholder_of_inj in E as [<- <-].
    rewrite count_same_snoc, str_eqb_refl in Hn. lia.
  - apply IH.
Qed.

Lemma set_all_fresh {V : Type} (l m : dict V) :
  NoDup (keys m ++ keys l) -> set_all l m = m ++ l.
Proof.
  revert m; induction l as [|[k v] l IH]; intros m H; simpl.
  - now rewrite app_nil_r.
  - simpl in H. unfold set_all in *. cbn [fold_left fst snd].
    rewrite dict_set_fresh.
    + rewrite IH; [now rewrite <- app_assoc|].
      unfold keys in *. rewrite map_app, <- app_assoc. exact H.
    + apply NoDup_remove_2 in H. intros Hin. apply H, in_or_app. now left.
Qed.

Lemma redact_state_spec (T : str) (E : list TextEntity)
    (labels : option (list str)) :
  let es := sorted_desc (entities_to_process E labels) in
  redacted_text (redact_state T E labels) = text_fold T es (keys (numbered [] es)) /\
  placeholder_map (redact_state T E labels) = numbered [] es.
Proof.
  intros es. unfold redact_state. fold es.
  destruct (fold_redact_step es [] (mkState T [] []) counts_ok_nil)
    as (E1 & E2 & _).
  split; [exact E1|]. rewrite E2. cbn [placeholder_map].
  rewrite set_all_fresh; [reflexivity|]. apply numbered_keys_NoDup.
Qed.

Lemma numbered_length (seen es : list TextEntity) :
  length (keys (numbered seen es)) = length es.
Proof.
  revert seen; induction es as [|e es IH]; intros seen; simpl; auto.
Qed.

Lemma numbered_values (seen es : list TextEntity) :
  values (numbered seen es) = map entity es.
Proof.
  revert seen; induction es as [|e es IH]; intros seen; simpl;
    [reflexivity | now rewrite <- (IH (seen ++ [e]))].
Qed.

Lemma numbered_keys_bracketed (seen es : list TextEntity) :
  Forall (fun e => bracket_free (label e)) es ->
  Forall bracketed (keys (numbered seen es)).
Proof.
  intros H; revert seen; induction H as [|e es He _ IH]; intros seen; simpl;
    constructor; [now apply placeholder_of_bracketed | apply IH].
Qed.

(** Along a chain the running text is the view of the original. *)
Lemma text_fold_chain (T : str) (es : list TextEntity) (phs : list str)
    (b : Z) (R : str) :
  chain b es -> (b <= Z.of_nat (length T))%Z -> length phs = length es ->
  text_fold (slice T 0 b ++ R) es phs = flatten (view T b es phs) ++ R.
Proof.
  revert phs b R; induction es as [|e es IH]; intros [|p phs] b R Hc Hb Hl;
    simpl in Hl; try discriminate.
  - simpl. now rewrite app_nil_r.
  - destruct Hc as (Hse & Heb & Hc). cbn [text_fold view]. unfold text_step.
    rewrite (slice_to_left T _ (start e) (end_ e) b),
            (slice_from_right T _ (start e) (end_ e) b) by lia.
    rewrite (IH phs (start e)); [|assumption|lia|lia].
    rewrite flatten_app. simpl. rewrite app_nil_r, <- !app_assoc. reflexivity.
Qed.

Lemma non_overlapping_NoDup (T : str) (E : list TextEntity) :
  Forall (detected_in T) E -> non_overlapping E -> NoDup E.
Proof.
  intros HT H. induction H as [|a l Ha Hl IH]; constructor.
  - intros Hin. rewrite Forall_forall in Ha. specialize (Ha a Hin).
    inversion HT as [|? ? (Hse & _) _]; subst.
    unfold disjoint in Ha. lia.
  - inversion HT; subst. auto.
Qed.

Lemma non_overlapping_pairs (E : list TextEntity) (a b : TextEntity) :
  non_overlapping E -> In a E -> In b E -> a <> b -> disjoint a b.
Proof.
  intros H Ha Hb Hne.
  destruct (ForallOrdPairs_In H a b Ha Hb) as [E1 | [E1 | E1]];
    [congruence | assumption | unfold disjoint in *; tauto].
Qed.

Lemma chain_of_descending (es : list TextEntity) (b : Z) :
  descending es -> NoDup es ->
  (forall x y, In x es -> In y es -> x <> y -> disjoint x y) ->
  (forall e, In e es -> (0 <= start e < end_ e)%Z /\ (end_ e <= b)%Z) ->
  chain b es.
Proof.
  intros Hs; revert b; induction Hs as [|e es Hs IH He]; intros b Hn Hd Hb.
  - exact I.
  - inversion Hn as [|? ? Hne Hn']; subst.
    destruct (Hb e (or_introl eq_refl)) as [H1 H2].
    simpl. repeat split; try lia.
    apply IH; auto.
    + intros x y Hx Hy. apply Hd; now right.
    + intros r Hr. destruct (Hb r (or_intror Hr)) as [H3 H4].
      split; [assumption|].
      rewrite Forall_forall in He. specialize (He r Hr).
      assert (Hre : e <> r) by (intros ->; tauto).
      specialize (Hd e r (or_introl eq_refl) (or_intror Hr) Hre).
      unfold disjoint in Hd. lia.
Qed.

Lemma entities_to_process_incl (E : list TextEntity)
    (labels : option (list str)) (e : TextEntity) :
  In e (entities_to_process E labels) -> In e E.
Proof.
  destruct labels as [[|l ls]|]; simpl; auto.
  intros H. apply filter_In in H. tauto.
Qed.

Lemma entities_to_process_NoDup (E : list TextEntity)
    (labels : option (list str)) :
  NoDup E -> NoDup (entities_to_process E labels).
Proof.
  destruct labels as [[|l ls]|]; simpl; auto. apply NoDup_filter.
Qed.

(** The entities the loop processes form a chain below the end of the
    text. *)
Lemma processed_chain (T : str) (E : list TextEntity)
    (labels : option (list str)) :
  Forall (detected_in T) E -> non_overlapping E ->
  chain (Z.of_nat (length T)) (sorted_desc (entities_to_process E labels)).
Proof.
  intros HT HE.
  pose proof (sorted_desc_perm (entities_to_process E labels)) as Hp.
  assert (Hin : forall e, In e (sorted_desc (entities_to_process E labels)) ->
                          In e E).
  { intros e He. eapply entities_to_process_incl, Permutation_in; eauto. }
  apply chain_of_descending.
  - apply sorted_desc_descending.
  - eapply Permutation_NoDup; [apply Permutation_sym, Hp|].
    apply entities_to_process_NoDup. eapply non_overlapping_NoDup; eauto.
  - intros x y Hx Hy. apply (non_overlapping_pairs E); auto.
  - intros e He. rewrite Forall_forall in HT.
    destruct (HT e (Hin e He)) as (H1 & H2 & _). auto.
Qed.

(** The redacted text and the mapping, read off the original text. *)
Lemma redact_view (T : str) (E : list TextEntity)
    (labels : option (list str)) :
  Forall (detected_in T) E -> non_overlapping E ->
  let es := sorted_desc (entities_to_process E labels) in
  redact T E labels =
    (flatten (view T (Z.of_nat (length T)) es (keys (numbered [] es))),
     numbered [] es).
Proof.
  intros HT HE es. unfold redact.
  destruct (redact_state_spec T E labels) as [E1 E2]. fold es in E1, E2.
  rewrite E1, E2. f_equal.
  rewrite <- (slice_whole T) at 1. rewrite <- (app_nil_r (slice T 0 _)).
  rewrite text_fold_chain.
  - apply app_nil_r.
  - now apply processed_chain.
  - lia.
  - apply numbered_length.
Qed.

End RedactorFacts.

Import RedactorFacts.

(** ** Redaction followed by restoration *)

Module RoundTrip.

Import Redactor Restorer.

Lemma view_tokens (T : str) (es : list TextEntity) (phs : list str)
    (b : Z) (q : str) :
  In (Tok q) (view T b es phs) -> In q phs.
Proof.
  revert phs b; induction es as [|e es IH]; intros [|p phs] b; simpl;
    try (intros [H | []]; discriminate).
  intros H. apply in_app_or in H as [H | [H | [H | []]]];
    [right; eauto | left; congruence | discriminate].
Qed.

Lemma view_ok (T : str) (es : list TextEntity) (phs : list str) (b : Z) :
  ~ In lbr T -> Forall bracketed phs -> Forall piece_ok (view T b es phs).
Proof.
  intros HT. revert phs b; induction es as [|e es IH]; intros phs b Hp.
  - destruct phs; repeat constructor; now apply slice_no_char.
  - destruct Hp as [|p phs Hp1 Hp2]; simpl.
    + repeat constructor. now apply slice_no_char.
    + apply Forall_app. split; [now apply IH|].
      repeat constructor; [assumption | now apply slice_no_char].
Qed.

Lemma subst_all_app (m : dict str) (a b : list piece) :
  subst_all m (a ++ b) = subst_all m a ++ subst_all m b.
Proof. apply map_app. Qed.

Lemma subst_all_skip (k v : str) (m : dict str) (its : list piece) :
  ~ In (Tok k) its -> subst_all ((k, v) :: m) its = subst_all m its.
Proof.
  intros H. apply map_ext_in. intros [g | p] Hin; [reflexivity|].
  simpl. destruct (str_eqb p k) eqn:E; [|reflexivity].
  apply str_eqb_eq in E. subst. tauto.
Qed.

(** Putting the values back into the view gives the original text. *)
Lemma subst_numbered_view (T : str) (es seen : list TextEntity) (b : Z) :
  chain b es -> (b <= Z.of_nat (length T))%Z ->
  Forall (fun e => entity e = slice T (start e) (end_ e)) es ->
  flatten (subst_all (numbered seen es)
                     (view T b es (keys (numbered seen es)))) = slice T 0 b.
Proof.
  revert seen b; induction es as [|e es IH]; intros seen b Hc Hb Hv.
  - simpl. apply app_nil_r.
  - destruct Hc as (Hse & Heb & Hc).
    inversion Hv as [|? ? Hv1 Hv2]; subst.
    pose proof (numbered_keys_NoDup seen (e :: es)) as Hn.
    cbn [numbered keys map fst view] in *.
    set (p := placeholder_of (label e)
                (_generate_placeholder_id (count_same (label e) seen))) in *.
    inversion Hn as [|? ? Hp _]; subst.
    rewrite subst_all_app, flatten_app, subst_all_skip.
    + fold (keys (numbered (seen ++ [e]) es)).
      rewrite IH by (assumption || lia).
      cbn [subst_all map dict_get]. rewrite str_eqb_refl.
      cbn [flatten flat_map piece_text]. rewrite app_nil_r, Hv1.
      apply slice_join; lia.
    + intros Hin. apply view_tokens in Hin. exact (Hp Hin).
Qed.

Lemma processed_Forall (P : TextEntity -> Prop) (E : list TextEntity)
    (labels : option (list str)) :
  Forall P E -> Forall P (sorted_desc (entities_to_process E labels)).
Proof.
  rewrite !Forall_forall. intros H e He. apply H.
  eapply entities_to_process_incl, Permutation_in;
    [apply sorted_desc_perm | exact He].
Qed.

End RoundTrip.

(** C1 (as the code has it).  Round trip: for a text [T] that holds no
    opening bracket, and non-overlapping entities detected in [T] (each a
    non-empty span of [T] whose value is the text of the span) whose
    labels hold no bracket, restoring the redacted text with the mapping
    of the same [redact] call gives back [T] exactly, whatever
    [labels_to_redact] was. *)
Theorem round_trip (T : str) (E : list TextEntity) (labels : option (list str)) :
  Forall (detected_in T) E ->
  non_overlapping E ->
  ~ In lbr T ->
  Forall (fun e => bracket_free (label e)) E ->
  Restorer.restore (fst (Redactor.redact T E labels))
                   (snd (Redactor.redact T E labels)) = T.
Proof.
  intros HT HE Hl Hb.
  rewrite redact_view by assumption. cbn [fst snd].
  set (es := Redactor.sorted_desc (Redactor.entities_to_process E labels)).
  rewrite restore_flatten.
  - rewrite RoundTrip.subst_numbered_view.
    + apply slice_whole.
    + now apply processed_chain.
    + lia.
    + apply RoundTrip.processed_Forall.
      eapply Forall_impl; [|exact HT]. intros e (_ & _ & H). exact H.
  - apply numbered_keys_bracketed. now apply RoundTrip.processed_Forall.
  - rewrite numbered_values, Forall_map.
    apply RoundTrip.processed_Forall.
    eapply Forall_impl; [|exact HT]. intros e (_ & _ & ->).
    now apply slice_no_char.
  - apply RoundTrip.view_ok; [assumption|].
    apply numbered_keys_bracketed. now apply RoundTrip.processed_Forall.
Qed.

Lemma round_trip_witness :
  Restorer.restore (fst (Redactor.redact sample_text sample_entities None))
                   (snd (Redactor.redact sample_text sample_entities None))
  = sample_text.
Proof.
  apply round_trip.
  - repeat constructor; simpl; lia.
  - repeat constructor; unfold disjoint; simpl; lia.
  - apply has_char_false. reflexivity.
  - repeat constructor; apply has_char_false; reflexivity.
Defined.

(** C1 (as stated) fails on a text that already holds a placeholder: the
    occurrence that belongs to the text is rewritten too.  It also fails
    on an empty span at the start of another span, where the second
    replacement cuts into the first placeholder. *)
Lemma round_trip_counterexample :
  (let T := lit "[PERSON_A] met Bob" in
   let E := [mkTextEntity (lit "Bob") (lit "PERSON") 15 18] in
   Forall (spans_text T) E /\ non_overlapping E /\
   Redactor.redact T E None =
     (lit "[PERSON_A] met [PERSON_A]", [(lit "[PERSON_A]", lit "Bob")]) /\
   Restorer.restore (fst (Redactor.redact T E None))
                    (snd (Redactor.redact T E None)) = lit "Bob met Bob" /\
   Restorer.restore (fst (Redactor.redact T E None))
                    (snd (Redactor.redact T E None)) <> T) /\
  (let T := lit "0123456789" in
   let E := [mkTextEntity [] (lit "X") 5 5;
             mkTextEntity (lit "567") (lit "Y") 5 8] in
   Forall (spans_text T) E /\ non_overlapping E /\
   Restorer.restore (fst (Redactor.redact T E None))
                    (snd (Redactor.redact T E None)) = lit "01234567A]56789" /\
   Restorer.restore (fst (Redactor.redact T E None))
                    (snd (Redactor.redact T E None)) <> T).
Proof.
  split.
  - repeat split; try (repeat constructor; simpl; lia); try reflexivity.
    vm_compute. discriminate.
  - repeat split; try (repeat constructor; unfold disjoint; simpl; lia);
      try reflexivity.
    vm_compute. discriminate.
Qed.

(** ** The hallucination scan *)

Module ScanFacts.

Import RestorationEngine.

Lemma placeholder_shapedb_true (p : str) :
  placeholder_shapedb p = true -> placeholder_shaped p.
Proof.
  unfold placeholder_shapedb. rewrite andb_true_iff, has_char_In.
  intros [H U]. apply bracketedb_true in H as (body & -> & Hl & Hr).
  exists body. repeat split; auto.
  destruct U as [U | U]; [discriminate|].
  apply in_app_or in U as [U | [U | []]]; [assumption | discriminate].
Qed.

Lemma placeholder_shaped_bracketed (p : str) :
  placeholder_shaped p -> bracketed p.
Proof. intros (body & E & Hl & Hr & _). now exists body. Qed.

(** What is read before an opening bracket does not depend on what
    follows it, and the bracket starts a fresh body. *)
Lemma scan_from_open (A s : str) (cur : option str) :
  scan_from cur (A ++ lbr :: s) = scan_from cur A ++ scan_from (Some []) s.
Proof.
  revert cur; induction A as [|c A IH]; intros cur.
  - cbn [app scan_from]. now rewrite Ascii.eqb_refl.
  - cbn [app scan_from].
    destruct (Ascii.eqb c lbr); [apply IH|].
    destruct (Ascii.eqb c rbr); [|apply IH].
    destruct cur as [body|]; [|apply IH].
    now rewrite IH, app_assoc.
Qed.

Lemma scan_from_body (body s acc : str) :
  ~ In lbr body -> ~ In rbr body ->
  scan_from (Some acc) (body ++ rbr :: s) =
    (if has_char underscore (acc ++ body)
     then [lbr :: (acc ++ body) ++ [rbr]] else []) ++ scan_from None s.
Proof.
  revert acc; induction body as [|c body IH]; intros acc Hl Hr.
  - cbn [app scan_from]. rewrite app_nil_r.
    change (Ascii.eqb rbr lbr) with false. now rewrite Ascii.eqb_refl.
  - cbn [app scan_from].
    destruct (Ascii.eqb c lbr) eqn:E1.
    { apply Ascii.eqb_eq in E1. subst. exfalso. apply Hl. now left. }
    destruct (Ascii.eqb c rbr) eqn:E2.
    { apply Ascii.eqb_eq in E2. subst. exfalso. apply Hr. now left. }
    cbn [option_map]. rewrite IH.
    + now rewrite <- app_assoc.
    + intros H. apply Hl. now right.
    + intros H. apply Hr. now right.
Qed.

(** A placeholder-shaped token of the output is found by the scan, in
    its place. *)
Lemma placeholder_tokens_around (A q B : str) :
  placeholder_shaped q ->
  placeholder_tokens (A ++ q ++ B) =
    placeholder_tokens A ++ q :: placeholder_tokens B.
Proof.
  intros (body & -> & Hl & Hr & Hu). unfold placeholder_tokens.
  cbn [app]. rewrite scan_from_open. f_equal.
  rewrite <- app_assoc. cbn [app]. rewrite scan_from_body by assumption.
  cbn [app]. apply has_char_In in Hu. now rewrite Hu.
Qed.

Lemma hallucinated_around (A q B : str) (ks : list str) :
  placeholder_shaped q -> ~ In q ks ->
  hallucination_pass (A ++ q ++ B) ks =
    hallucination_pass A ks ++ q :: hallucination_pass B ks.
Proof.
  intros Hq Hn. unfold hallucination_pass.
  rewrite placeholder_tokens_around by assumption.
  rewrite filter_app. cbn [filter].
  destruct (mem q ks) eqn:E; [|reflexivity].
  apply mem_In in E. tauto.
Qed.

End ScanFacts.

Import ScanFacts.

(** C3 (as the code has it).  Hallucination detection, for a mapping
    whose keys are bracketed tokens: (1) a placeholder-shaped token of the
    output that is no key of the mapping is left as it is where it is,
    the text on each side of it being restored on its own, and it is
    listed as hallucinated; (2) when no original value holds an opening
    bracket and the output is made of bracket-free stretches and
    bracketed tokens, the restored text is the output with every token
    that is a key replaced by its original value; (3) mapping
    [{"[PERSON_A]": "Jane Doe"}] and output ["[PERSON_A] and [PERSON_B]"]
    give ["Jane Doe and [PERSON_B]"] and the hallucinated list
    [["[PERSON_B]"]]. *)
Theorem hallucination_detection :
  (forall (m : dict str) (A q B : str),
      Forall bracketed (keys m) -> placeholder_shaped q -> ~ In q (keys m) ->
      Restorer.restore (A ++ q ++ B) m =
        Restorer.restore A m ++ q ++ Restorer.restore B m /\
      RestorationEngine.hallucination_pass (A ++ q ++ B) (keys m) =
        RestorationEngine.hallucination_pass A (keys m)
          ++ q :: RestorationEngine.hallucination_pass B (keys m)) /\
  (forall (m : dict str) (its : list piece),
      Forall bracketed (keys m) ->
      Forall (fun v => ~ In lbr v) (values m) ->
      Forall piece_ok its ->
      Restorer.restore (flatten its) m = flatten (subst_all m its)) /\
  (let m := [(lit "[PERSON_A]", lit "Jane Doe")] in
   let output := lit "[PERSON_A] and [PERSON_B]" in
   Restorer.restore output m = lit "Jane Doe and [PERSON_B]" /\
   RestorationEngine.hallucination_pass output (keys m) = [lit "[PERSON_B]"]).
Proof.
  split; [|split].
  - intros m A q B Hk Hq Hn. split.
    + apply restore_around_unmapped; auto.
      now apply placeholder_shaped_bracketed.
    + now apply hallucinated_around.
  - exact restore_flatten.
  - split; reflexivity.
Qed.

Lemma hallucination_detection_witness :
  Restorer.restore (lit "Dear " ++ lit "[PERSON_B]" ++ lit " and [PERSON_A]")
                   jane_mapping
  = Restorer.restore (lit "Dear ") jane_mapping ++ lit "[PERSON_B]"
      ++ Restorer.restore (lit " and [PERSON_A]") jane_mapping
  /\ Restorer.restore
       (flatten [Tok (lit "[PERSON_A]"); Gap (lit " and "); Tok (lit "[PERSON_B]")])
       jane_mapping
     = flatten (subst_all jane_mapping
         [Tok (lit "[PERSON_A]"); Gap (lit " and "); Tok (lit "[PERSON_B]")]).
Proof.
  destruct hallucination_detection as (H1 & H2 & _). split.
  - apply H1.
    + repeat constructor. apply bracketedb_true. reflexivity.
    + apply placeholder_shapedb_true. reflexivity.
    + simpl. intros [H | []]. discriminate.
  - apply H2.
    + repeat constructor. apply bracketedb_true. reflexivity.
    + repeat constructor. apply has_char_false. reflexivity.
    + repeat constructor;
        try (apply bracketedb_true; reflexivity);
        apply has_char_false; reflexivity.
Defined.

(** C3 (as stated) fails when an original value is itself a key that
    comes later in the mapping: the occurrence of [[PERSON_A]] does not
    end up as its original value. *)
Lemma hallucination_detection_counterexample :
  let m := [(lit "[PERSON_A]", lit "[ORG_A]"); (lit "[ORG_A]", lit "Acme")] in
  let its := [Tok (lit "[PERSON_A]"); Gap (lit " works at "); Tok (lit "[ORG_A]")] in
  flatten its = lit "[PERSON_A] works at [ORG_A]" /\
  flatten (subst_all m its) = lit "[ORG_A] works at Acme" /\
  Restorer.restore (flatten its) m = lit "Acme works at Acme" /\
  Restorer.restore (flatten its) m <> flatten (subst_all m its).
Proof.
  repeat split. vm_compute. discriminate.
Qed.

(** ** Placeholders that the output does not hold *)

Module UnusedFacts.

Import Restorer.

Lemma contains_gap (k g s : str) :
  bracketed k -> ~ In lbr g -> contains k (g ++ s) = contains k s.
Proof.
  intros (b & -> & _) Hg. induction g as [|c g IH]; [reflexivity|].
  cbn [app contains startswith].
  destruct (Ascii.eqb lbr c) eqn:E.
  - apply Ascii.eqb_eq in E. subst c. exfalso. apply Hg. now left.
  - cbn [andb orb]. apply IH. intros H. apply Hg. now right.
Qed.

Lemma contains_nil_r (k : str) : k <> [] -> contains k [] = false.
Proof. destruct k; [congruence | reflexivity]. Qed.

(** In a text of bracket-free stretches and bracketed tokens, a
    bracketed placeholder occurs only as one of the tokens. *)
Lemma contains_flatten (k : str) (its : list piece) :
  bracketed k -> Forall piece_ok its ->
  contains k (flatten its) = true -> In (Tok k) its.
Proof.
  intros Hk Hits. induction Hits as [|it its Hit _ IH]; intros H.
  - cbn [flatten flat_map] in H.
    rewrite contains_nil_r in H by now apply bracketed_not_nil.
    discriminate.
  - destruct it as [g | q]; cbn [flatten flat_map piece_text] in H.
    + rewrite contains_gap in H by assumption. right. now apply IH.
    + simpl in Hit. destruct (startswith k (q ++ flat_map piece_text its)) eqn:S.
      * apply startswith_iff in S as (r & S).
        apply bracketed_prefix in S as [-> _]; auto. now left.
      * right. apply IH. destruct Hit as (bq & -> & Hl & Hr).
        cbn [app contains] in H, S. rewrite S in H. cbn [orb] in H.
        rewrite contains_gap in H; [assumption | assumption |].
        intros Hin. apply in_app_or in Hin as [Hin | [Hin | []]];
          [tauto | discriminate].
Qed.

Lemma contains_Tok (k : str) (its : list piece) :
  In (Tok k) its -> contains k (flatten its) = true.
Proof.
  intros H. apply in_split in H as (l1 & l2 & ->).
  apply contains_iff. exists (flatten l1), (flatten l2).
  rewrite flatten_app. reflexivity.
Qed.

Lemma subst_all_Tok (m : dict str) (its : list piece) (k : str) :
  In (Tok k) (subst_all m its) -> In (Tok k) its.
Proof.
  unfold subst_all. rewrite in_map_iff. intros ([g | p] & E & Hin).
  - discriminate.
  - destruct (dict_get m p); [discriminate | congruence].
Qed.

Lemma dict_get_values {V : Type} (m : dict V) (k : str) (v : V) :
  dict_get m k = Some v -> In v (values m).
Proof.
  induction m as [|[k' v'] m IH]; simpl; [discriminate|].
  destruct (str_eqb k k'); [intros [= ->]; now left | auto].
Qed.

Lemma subst_all_ok (m : dict str) (its : list piece) :
  Forall (fun v => ~ In lbr v) (values m) ->
  Forall piece_ok its -> Forall piece_ok (subst_all m its).
Proof.
  intros Hv Hits. induction Hits as [|it its Hit _ IH]; simpl;
    constructor; auto.
  destruct it as [g | p]; [assumption|].
  destruct (dict_get m p) eqn:E; [|assumption].
  simpl. rewrite Forall_forall in Hv. eapply Hv, dict_get_values, E.
Qed.

(** A placeholder absent from such an output is still absent when its
    entry is reached. *)
Lemma absent_stays_absent (pre : dict str) (its : list piece) (k : str) :
  bracketed k -> Forall bracketed (keys pre) ->
  Forall (fun v => ~ In lbr v) (values pre) -> Forall piece_ok its ->
  contains k (flatten its) = false ->
  contains k (restore (flatten its) pre) = false.
Proof.
  intros Hk Hks Hvs Hits H.
  rewrite restore_flatten by assumption.
  destruct (contains k (flatten (subst_all pre its))) eqn:E; [|reflexivity].
  apply contains_flatten in E; [|assumption|now apply subst_all_ok].
  apply subst_all_Tok, contains_Tok in E. congruence.
Qed.

Lemma restore_run_absent (t k v : str) (post : dict str) :
  contains k t = false ->
  restore_run t ((k, v) :: post) =
    (restore t post, WarningNotFound k :: snd (restore_run t post)).
Proof.
  intros H. unfold restore_run at 1. cbn [fold_left restore_step].
  rewrite H. cbn [app].
  rewrite (surjective_pairing (fold_left _ _ _)). f_equal.
  - rewrite restore_fold. apply fold_restore_step_text.
  - apply (fold_restore_step_log post t [WarningNotFound k]).
Qed.

End UnusedFacts.

(** C7 (as the code has it).  Unused-placeholder reporting: for every
    mapping entry whose placeholder does not occur in the text as the
    entries before it have left it, restoration goes through (it is a
    total function), the final text is the one the mapping without that
    entry gives, and the log holds the not-found warning for the
    placeholder at the entry's position.  For the first entry that text
    is the output itself; it is also enough that the placeholder does not
    occur in the output when the output is made of bracket-free stretches
    and bracketed tokens, the keys are bracketed and the earlier original
    values hold no opening bracket. *)
Theorem unused_placeholder_reported :
  (forall (output : str) (pre post : dict str) (k v : str),
      contains k (Restorer.restore output pre) = false ->
      Restorer.restore output (pre ++ (k, v) :: post) =
        Restorer.restore output (pre ++ post) /\
      snd (Restorer.restore_run output (pre ++ (k, v) :: post)) =
        snd (Restorer.restore_run output pre)
          ++ Restorer.WarningNotFound k
          :: snd (Restorer.restore_run (Restorer.restore output pre) post)) /\
  (forall (its : list piece) (pre : dict str) (k : str),
      bracketed k -> Forall bracketed (keys pre) ->
      Forall (fun v => ~ In lbr v) (values pre) -> Forall piece_ok its ->
      contains k (flatten its) = false ->
      contains k (Restorer.restore (flatten its) pre) = false).
Proof.
  split.
  - intros output pre post k v H.
    rewrite !restore_run_app, !restore_app.
    rewrite UnusedFacts.restore_run_absent by assumption. cbn [snd].
    split; [|reflexivity].
    rewrite restore_cons. now rewrite replace_absent.
  - intros its pre k. apply UnusedFacts.absent_stays_absent.
Qed.

Lemma unused_placeholder_reported_witness :
  Restorer.restore_run (lit "Dear [PERSON_A]") demo_mapping =
    (lit "Dear Jane Doe",
     [Restorer.InfoRestoring (lit "[PERSON_A]") (lit "Jane Doe");
      Restorer.WarningNotFound (lit "[EMAIL_A]")])
  /\ Restorer.restore (lit "Dear [PERSON_A]") demo_mapping =
     Restorer.restore (lit "Dear [PERSON_A]") [(lit "[PERSON_A]", lit "Jane Doe")]
  /\ contains (lit "[EMAIL_A]")
       (Restorer.restore
          (flatten [Gap (lit "Dear "); Tok (lit "[PERSON_A]")])
          [(lit "[PERSON_A]", lit "Jane Doe")]) = false.
Proof.
  destruct unused_placeholder_reported as [H1 H2].
  split; [reflexivity | split].
  - apply (H1 (lit "Dear [PERSON_A]") [(lit "[PERSON_A]", lit "Jane Doe")] []
              (lit "[EMAIL_A]") (lit "jane@example.com")).
    reflexivity.
  - apply H2.
    + apply bracketedb_true. reflexivity.
    + repeat constructor. apply bracketedb_true. reflexivity.
    + repeat constructor. apply has_char_false. reflexivity.
    + repeat constructor;
        try (apply bracketedb_true; reflexivity);
        apply has_char_false; reflexivity.
    + reflexivity.
Defined.

(** C7 (as stated) fails when an earlier original value brings the
    placeholder in: [[ORG_A]] does not occur in the output, yet its entry
    rewrites the text and no warning is logged for it. *)
Lemma unused_placeholder_counterexample :
  let m := [(lit "[PERSON_A]", lit "[ORG_A]"); (lit "[ORG_A]", lit "Acme")] in
  let output := lit "Dear [PERSON_A]" in
  contains (lit "[ORG_A]") output = false /\
  Restorer.restore_run output m =
    (lit "Dear Acme",
     [Restorer.InfoRestoring (lit "[PERSON_A]") (lit "[ORG_A]");
      Restorer.InfoRestoring (lit "[ORG_A]") (lit "Acme")]) /\
  Restorer.restore output m <>
    Restorer.restore output [(lit "[PERSON_A]", lit "[ORG_A]")] /\
  ~ In (Restorer.WarningNotFound (lit "[ORG_A]"))
       (snd (Restorer.restore_run output m)).
Proof.
  repeat split.
  - vm_compute. discriminate.
  - vm_compute. intros [H | [H | []]]; discriminate.
Qed.

(** ** The restoration engine *)

Module EngineFacts.

Import RestorationEngine.

Lemma step_text (t : str) (r u : list str) (kv : str * Mapping) :
  fst (fst (restoration_step (t, r, u) kv)) = act kv t.
Proof.
  destruct kv as [k m]. unfold restoration_step, act. cbn [fst snd].
  destruct (contains k t) eqn:E.
  - destruct (restorable m); [|reflexivity].
    destruct (original_text (mapping_entity m)); reflexivity.
  - cbn [fst]. destruct (restorable m); [|reflexivity].
    destruct (original_text (mapping_entity m)); [|reflexivity].
    symmetry. now apply replace_absent.
Qed.

Lemma pass_text (m : dict Mapping) (t : str) (r u : list str) :
  fst (fst (fold_left restoration_step m (t, r, u))) =
  fold_left (fun t kv => act kv t) m t.
Proof.
  revert t r u; induction m as [|kv m IH]; intros t r u; [reflexivity|].
  cbn [fold_left]. pose proof (step_text t r u kv) as H.
  destruct (restoration_step (t, r, u) kv) as [[t' r'] u'].
  cbn [fst] in H. subst t'. apply IH.
Qed.

Lemma restored_text_fold (output : str) (m : dict Mapping) :
  restored_text output m = fold_left (fun t kv => act kv t) m output.
Proof.
  unfold restored_text, restore.
  rewrite <- (pass_text m output [] []). unfold restoration_pass.
  destruct (fold_left restoration_step m (output, [], [])) as [[t r] u].
  reflexivity.
Qed.

Lemma act_not_restorable (kv : str * Mapping) (t : str) :
  is_restorable kv = false -> act kv t = t.
Proof. unfold is_restorable, act. now intros ->. Qed.

Lemma fold_act_filter (m : dict Mapping) (t : str) :
  fold_left (fun t kv => act kv t) (filter is_restorable m) t =
  fold_left (fun t kv => act kv t) m t.
Proof.
  revert t; induction m as [|kv m IH]; intros t; [reflexivity|].
  cbn [filter fold_left]. destruct (is_restorable kv) eqn:E.
  - apply IH.
  - rewrite act_not_restorable by assumption. apply IH.
Qed.

(** Around a bracketed token that no rewriting entry has as its key, the
    engine restores each side on its own. *)
Lemma fold_act_around (m : dict Mapping) (A k B : str) :
  Forall bracketed (keys m) -> bracketed k ->
  (forall kv, In kv m -> is_restorable kv = true -> fst kv <> k) ->
  fold_left (fun t kv => act kv t) m (A ++ k ++ B) =
  fold_left (fun t kv => act kv t) m A ++ k
    ++ fold_left (fun t kv => act kv t) m B.
Proof.
  revert A B; induction m as [|kv m IH]; intros A B Hk Hb Hn; [reflexivity|].
  inversion Hk as [|? ? Hk1 Hk2]; subst. cbn [fold_left].
  assert (Hm : forall kv', In kv' m -> is_restorable kv' = true -> fst kv' <> k)
    by (intros kv' Hin; apply Hn; now right).
  assert (E : act kv (A ++ k ++ B) = act kv A ++ k ++ act kv B).
  { unfold act. destruct (restorable (snd kv)) eqn:R; [|reflexivity].
    destruct (original_text (mapping_entity (snd kv))); [|reflexivity].
    rewrite replace_around_token by assumption.
    destruct (str_eqb (fst kv) k) eqn:Ek; [|reflexivity].
    apply str_eqb_eq in Ek. exfalso. apply (Hn kv); auto. now left. }
  rewrite E. now apply IH.
Qed.

Lemma NoDup_keys_unique {V : Type} (m : dict V) (k : str) (v1 v2 : V) :
  NoDup (keys m) -> In (k, v1) m -> In (k, v2) m -> v1 = v2.
Proof.
  induction m as [|[k' v'] m IH]; simpl; [tauto|].
  intros Hn H1 H2. inversion Hn as [|? ? Hk Hn']; subst.
  destruct H1 as [H1 | H1], H2 as [H2 | H2].
  - congruence.
  - injection H1 as -> ->. exfalso. apply Hk.
    apply (in_map fst) in H2. exact H2.
  - injection H2 as -> ->. exfalso. apply Hk.
    apply (in_map fst) in H1. exact H1.
  - now apply IH.
Qed.

(** The restored list only holds keys of entries flagged restorable. *)
Lemma pass_restored (m : dict Mapping) (t : str) (r u : list str) (k : str) :
  In k (snd (fst (fold_left restoration_step m (t, r, u)))) ->
  In k r \/ exists e, In (k, e) m /\ restorable e = true.
Proof.
  revert t r u; induction m as [|[k' e'] m IH]; intros t r u H.
  - now left.
  - cbn [fold_left] in H.
    assert (Hstep : forall x, In x (snd (fst (restoration_step (t, r, u) (k', e')))) ->
                              In x r \/ (x = k' /\ restorable e' = true)).
    { intros x. unfold restoration_step.
      destruct (contains k' t); [|now left].
      destruct (restorable e') eqn:R; [|now left].
      destruct (original_text (mapping_entity e')); [|now left].
      cbn [fst snd]. intros Hx. apply in_app_or in Hx as [Hx | [Hx | []]]; auto. }
    destruct (restoration_step (t, r, u) (k', e')) as [[t' r'] u'].
    apply IH in H as [H | (e & He & Hr)].
    + apply Hstep in H as [H | [-> Hr]]; [now left|].
      right. exists e'. split; [now left | assumption].
    + right. exists e. split; [now right | assumption].
Qed.

End EngineFacts.

(** C2.  For every mapping and every output text, the entries whose
    [restorable] flag is false are never rewritten by the restoration
    engine, whatever their entity holds: (1) the restored text is the one
    the restorable entries alone give; (2) with placeholders that are
    bracketed tokens, unique in the mapping, every occurrence of the
    placeholder of a non-restorable entry stays where it is, the text on
    each side of it being restored on its own; (3) such a placeholder is
    never reported as restored. *)
Theorem non_restorable_never_rewritten :
  (forall (output : str) (mapping : dict Mapping),
      restored_text output mapping =
      restored_text output (filter is_restorable mapping)) /\
  (forall (mapping : dict Mapping) (A B k : str) (entry : Mapping),
      Forall bracketed (keys mapping) -> NoDup (keys mapping) ->
      In (k, entry) mapping -> restorable entry = false ->
      restored_text (A ++ k ++ B) mapping =
        restored_text A mapping ++ k ++ restored_text B mapping) /\
  (forall (output : str) (mapping : dict Mapping) (k : str) (entry : Mapping),
      NoDup (keys mapping) ->
      In (k, entry) mapping -> restorable entry = false ->
      ~ In k (RestorationEngine.restored_placeholders
                (snd (RestorationEngine.restore output mapping)))).
Proof.
  split; [|split].
  - intros output mapping. rewrite !EngineFacts.restored_text_fold.
    symmetry. apply EngineFacts.fold_act_filter.
  - intros mapping A B k entry Hk Hn Hin Hr.
    rewrite !EngineFacts.restored_text_fold.
    apply EngineFacts.fold_act_around; auto.
    + rewrite Forall_forall in Hk. apply Hk.
      apply (in_map fst) in Hin. exact Hin.
    + intros [k' e'] Hin' Hr' E. cbn [fst] in E. subst k'.
      unfold is_restorable in Hr'. cbn [snd] in Hr'.
      rewrite (EngineFacts.NoDup_keys_unique mapping k e' entry) in Hr'; auto.
      congruence.
  - intros output mapping k entry Hn Hin Hr H.
    unfold RestorationEngine.restore, RestorationEngine.restoration_pass in H.
    pose proof (EngineFacts.pass_restored mapping output [] [] k) as P.
    destruct (fold_left RestorationEngine.restoration_step mapping (output, [], []))
      as [[t r] u].
    cbn [snd fst RestorationEngine.restored_placeholders] in H, P.
    destruct (P H) as [[] | (e & He & Hre)].
    rewrite (EngineFacts.NoDup_keys_unique mapping k e entry) in Hre; auto.
    congruence.
Qed.

Lemma non_restorable_never_rewritten_witness :
  restored_text (lit "I see " ++ lit "[FACE_A]" ++ lit " near [TEXT_A]")
                image_mapping
  = restored_text (lit "I see ") image_mapping ++ lit "[FACE_A]"
      ++ restored_text (lit " near [TEXT_A]") image_mapping
  /\ ~ In (lit "[FACE_A]")
       (RestorationEngine.restored_placeholders
          (snd (RestorationEngine.restore (lit "I see [FACE_A] near [TEXT_A]")
                                          image_mapping))).
Proof.
  destruct non_restorable_never_rewritten as (_ & H2 & H3). split.
  - apply (H2 image_mapping _ _ _ (mkMapping (lit "[FACE_A]") face_entity false)).
    + repeat constructor; apply bracketedb_true; reflexivity.
    + repeat constructor; simpl; intuition discriminate.
    + now left.
    + reflexivity.
  - apply (H3 _ image_mapping _ (mkMapping (lit "[FACE_A]") face_entity false)).
    + repeat constructor; simpl; intuition discriminate.
    + now left.
    + reflexivity.
Defined.

(** ** Deduplication of text candidates *)

Module DedupFacts.

Import PIIDetector.

Ltac key_lia :=
  unfold not_after, key_lt, key_le, start_le, ends_before in *;
  repeat match goal with
         | H : context [(?a <? ?b)%Z] |- _ => destruct (Z.ltb_spec a b)
         | H : context [(?a =? ?b)%Z] |- _ => destruct (Z.eqb_spec a b)
         | |- context [(?a <? ?b)%Z] => destruct (Z.ltb_spec a b)
         | |- context [(?a =? ?b)%Z] => destruct (Z.eqb_spec a b)
         end;
  simpl in *; try lia; try congruence.

Lemma key_lt_asym (a b : TextEntity) : key_lt a b = true -> key_lt b a = false.
Proof. intros H. key_lia. Qed.

Lemma key_not_after_trans (a b c : TextEntity) :
  not_after key_lt a b -> not_after key_lt b c -> not_after key_lt a c.
Proof. intros H1 H2. key_lia. Qed.

Lemma key_not_after_le (a b : TextEntity) : not_after key_lt a b -> key_le a b.
Proof. intros H. key_lia. Qed.

Lemma candidates_sorted (entities : list TextEntity) :
  StronglySorted key_le (sorted key_lt entities).
Proof.
  eapply StronglySorted_impl; [exact key_not_after_le|].
  apply sorted_sorted; [exact key_lt_asym | exact key_not_after_trans].
Qed.

Lemma StronglySorted_snoc {A : Type} (R : A -> A -> Prop) (l : list A) (x : A) :
  StronglySorted R l -> Forall (fun a => R a x) l -> StronglySorted R (l ++ [x]).
Proof.
  induction 1 as [|y l Hs IH Hy]; intros Hx; simpl.
  - repeat constructor.
  - inversion Hx; subst. constructor; [auto|].
    apply Forall_app. split; [assumption | now constructor].
Qed.

(** The loop keeps the accepted list ordered and free of overlaps, and
    [last_end] bounds the ends of what was accepted. *)
Lemma dedup_fold (rest acc : list TextEntity) (last_end : Z) :
  StronglySorted key_le rest ->
  StronglySorted start_le acc -> StronglySorted ends_before acc ->
  Forall (fun a => (end_ a <= last_end)%Z) acc ->
  Forall (fun a => Forall (start_le a) rest) acc ->
  StronglySorted start_le (fst (fold_left dedup_step rest (acc, last_end))) /\
  StronglySorted ends_before (fst (fold_left dedup_step rest (acc, last_end))) /\
  (forall x, In x (fst (fold_left dedup_step rest (acc, last_end))) ->
             In x acc \/ In x rest).
Proof.
  intros Hr; revert acc last_end.
  induction Hr as [|e rest Hr IH He]; intros acc last_end H1 H2 H3 H4.
  - simpl. auto.
  - cbn [fold_left].
    assert (Hrest : Forall (fun a => Forall (start_le a) rest) acc).
    { eapply Forall_impl; [|exact H4]. intros a Ha. now inversion Ha. }
    assert (Hdrop : forall x,
               In x acc \/ In x rest -> In x acc \/ In x (e :: rest))
      by (intros x [Hx | Hx]; simpl; auto).
    destruct (end_ e <=? last_end)%Z eqn:E1;
      [|destruct (start e <? last_end)%Z eqn:E2].
    + replace (dedup_step (acc, last_end) e) with (acc, last_end)
        by (unfold dedup_step; now rewrite E1).
      destruct (IH acc last_end) as (A & B & C); auto.
    + replace (dedup_step (acc, last_end) e) with (acc, last_end)
        by (unfold dedup_step; now rewrite E1, E2).
      destruct (IH acc last_end) as (A & B & C); auto.
    + replace (dedup_step (acc, last_end) e) with (acc ++ [e], end_ e)
        by (unfold dedup_step; now rewrite E1, E2).
      apply Z.leb_gt in E1. apply Z.ltb_ge in E2.
      destruct (IH (acc ++ [e]) (end_ e)) as (A & B & C).
      * apply StronglySorted_snoc; [assumption|].
        eapply Forall_impl; [|exact H4]. intros a Ha. now inversion Ha.
      * apply StronglySorted_snoc; [assumption|].
        eapply Forall_impl; [|exact H3]. intros a Ha.
        unfold ends_before. simpl in Ha. lia.
      * apply Forall_app. split.
        -- eapply Forall_impl; [|exact H3]. intros a Ha. simpl in Ha. lia.
        -- constructor; [lia | constructor].
      * apply Forall_app. split; [assumption|].
        constructor; [|constructor].
        eapply Forall_impl; [|exact He]. intros b Hb.
        unfold key_le, start_le in *. lia.
      * repeat split; auto. intros x Hx.
        destruct (C x Hx) as [Hin | Hin]; [|simpl; auto].
        apply in_app_or in Hin as [Hin | [<- | []]]; simpl; auto.
Qed.

(** Two entities of a sorted list are equal or related one way or the
    other. *)
Lemma run_pairs {A : Type} (R : A -> A -> Prop) (l : list A) (a b : A) :
  StronglySorted R l -> In a l -> In b l -> a = b \/ R a b \/ R b a.
Proof.
  induction 1 as [|x l Hs IH Hx]; intros Ha Hb; [destruct Ha|].
  rewrite Forall_forall in Hx.
  destruct Ha as [<- | Ha], Hb as [<- | Hb]; auto.
Qed.

Lemma run_NoDup {A : Type} (R : A -> A -> Prop) (l : list A) :
  (forall x, ~ R x x) -> StronglySorted R l -> NoDup l.
Proof.
  intros Hirr. induction 1 as [|x l Hs IH Hx]; constructor; [|exact IH].
  intros Hin. rewrite Forall_forall in Hx. exact (Hirr x (Hx x Hin)).
Qed.

(** The accepted list grows in the order [accepted_before]. *)
Lemma dedup_fold_order (rest acc : list TextEntity) (last_end : Z) :
  StronglySorted key_le rest ->
  StronglySorted accepted_before acc ->
  Forall (fun a => (end_ a <= last_end)%Z /\ Forall (key_le a) rest) acc ->
  StronglySorted accepted_before (fst (fold_left dedup_step rest (acc, last_end))).
Proof.
  intros Hr; revert acc last_end.
  induction Hr as [|e rest Hr IH He]; intros acc last_end H1 H2; [exact H1|].
  cbn [fold_left].
  assert (Hrest : Forall (fun a => (end_ a <= last_end)%Z /\
                                   Forall (key_le a) rest) acc).
  { eapply Forall_impl; [|exact H2]. intros a [Ha1 Ha2].
    split; [assumption | now inversion Ha2]. }
  destruct (end_ e <=? last_end)%Z eqn:E1;
    [|destruct (start e <? last_end)%Z eqn:E2].
  - replace (dedup_step (acc, last_end) e) with (acc, last_end)
      by (unfold dedup_step; now rewrite E1).
    now apply IH.
  - replace (dedup_step (acc, last_end) e) with (acc, last_end)
      by (unfold dedup_step; now rewrite E1, E2).
    now apply IH.
  - replace (dedup_step (acc, last_end) e) with (acc ++ [e], end_ e)
      by (unfold dedup_step; now rewrite E1, E2).
    apply Z.leb_gt in E1. apply Z.ltb_ge in E2. apply IH.
    + apply StronglySorted_snoc; [assumption|].
      eapply Forall_impl; [|exact H2]. intros a [Ha1 Ha2].
      inversion Ha2; subst. unfold accepted_before. repeat split; [assumption | lia | lia].
    + apply Forall_app. split.
      * eapply Forall_impl; [|exact Hrest]. intros a [Ha1 Ha2].
        split; [lia | assumption].
      * constructor; [|constructor]. split; [lia | exact He].
Qed.

(** What the loop adds to the accepted list passed both tests. *)
Lemma dedup_fold_run (rest acc : list TextEntity) (last_end : Z) :
  exists added,
    fst (fold_left dedup_step rest (acc, last_end)) = acc ++ added /\
    accepted_run last_end added /\ (forall x, In x added -> In x rest).
Proof.
  revert acc last_end; induction rest as [|e rest IH]; intros acc last_end.
  - exists []. simpl. rewrite app_nil_r. repeat split; auto.
  - cbn [fold_left]. unfold dedup_step at 2.
    destruct (Z.leb_spec (end_ e) last_end) as [H1 | H1];
      [|destruct (Z.ltb_spec (start e) last_end) as [H2 | H2]].
    + destruct (IH acc last_end) as (o & E & A & I).
      exists o. repeat split; auto. intros x Hx. right. auto.
    + destruct (IH acc last_end) as (o & E & A & I).
      exists o. repeat split; auto. intros x Hx. right. auto.
    + destruct (IH (acc ++ [e]) (end_ e)) as (o & E & A & I).
      exists (e :: o). rewrite E, <- app_assoc. repeat split; auto.
      intros x [<- | Hx]; [now left | right; auto].
Qed.

Lemma accepted_run_bounds (l : list TextEntity) (last_end : Z) :
  accepted_run last_end l ->
  Forall (fun e => (last_end < end_ e /\ last_end <= start e)%Z) l.
Proof.
  revert last_end; induction l as [|e l IH]; intros last_end H; [constructor|].
  destruct H as (H1 & H2 & H3). constructor; [lia|].
  eapply Forall_impl; [|exact (IH _ H3)]. intros a Ha. simpl in Ha. lia.
Qed.

(** A candidate is accepted, or dropped by the two tests against the
    last accepted entity or against the initial [last_end]. *)
Lemma dedup_fold_drops (rest acc : list TextEntity) (last_end : Z) :
  StronglySorted key_le rest ->
  (last_end = (-1)%Z \/
   exists a, In a acc /\ end_ a = last_end /\ Forall (key_le a) rest) ->
  forall c, In c rest ->
    In c (fst (fold_left dedup_step rest (acc, last_end))) \/
    (exists a, In a (fst (fold_left dedup_step rest (acc, last_end))) /\
               dropped_for a c) \/
    dropped_at_once c.
Proof.
  intros Hr; revert acc last_end.
  induction Hr as [|e rest Hr IH He]; intros acc last_end Hst c Hc;
    [destruct Hc|].
  assert (Hkeep : forall st x, In x (fst st) ->
                    In x (fst (fold_left dedup_step rest st))).
  { intros [acc' last'] x Hx.
    destruct (dedup_fold_run rest acc' last') as (o & E & _).
    rewrite E. apply in_or_app. now left. }
  assert (Htail : last_end = (-1)%Z \/
                  exists a, In a acc /\ end_ a = last_end /\
                            Forall (key_le a) rest).
  { destruct Hst as [-> | (a & Ha & Ea & Fa)]; [now left|].
    right. exists a. inversion Fa; subst. auto. }
  assert (Hdrop : (end_ e <= last_end \/ start e < last_end)%Z ->
            (exists a, In a (fst (fold_left dedup_step rest (acc, last_end))) /\
                       dropped_for a e) \/ dropped_at_once e).
  { intros Hd. destruct Hst as [-> | (a & Ha & Ea & Fa)].
    - right. exact Hd.
    - left. exists a. split; [apply (Hkeep (acc, last_end)); exact Ha|].
      inversion Fa; subst. split; [assumption | lia]. }
  cbn [fold_left].
  destruct (Z.leb_spec (end_ e) last_end) as [H1 | H1];
    [|destruct (Z.ltb_spec (start e) last_end) as [H2 | H2]].
  - replace (dedup_step (acc, last_end) e) with (acc, last_end)
      by (unfold dedup_step; destruct (Z.leb_spec (end_ e) last_end);
          [reflexivity | lia]).
    destruct Hc as [<- | Hc]; [|now apply IH].
    right. apply Hdrop. now left.
  - replace (dedup_step (acc, last_end) e) with (acc, last_end)
      by (unfold dedup_step; destruct (Z.leb_spec (end_ e) last_end);
          [reflexivity|];
          destruct (Z.ltb_spec (start e) last_end); [reflexivity | lia]).
    destruct Hc as [<- | Hc]; [|now apply IH].
    right. apply Hdrop. now right.
  - replace (dedup_step (acc, last_end) e) with (acc ++ [e], end_ e)
      by (unfold dedup_step; destruct (Z.leb_spec (end_ e) last_end); [lia|];
          destruct (Z.ltb_spec (start e) last_end); [lia | reflexivity]).
    destruct Hc as [<- | Hc].
    + left. apply (Hkeep (acc ++ [e], end_ e)). apply in_or_app. right. now left.
    + apply IH; auto. right. exists e. split; [|split; [reflexivity | exact He]].
      apply in_or_app. right. now left.
Qed.

(** The deduplicated list, for every list of candidates. *)
Lemma dedup_output (entities : list TextEntity) :
  _deduplicate_and_sort_entities entities =
    fst (fold_left dedup_step (sorted key_lt entities) ([], (-1)%Z)).
Proof. destruct entities; reflexivity. Qed.

End DedupFacts.

(** C4.  Deduplication: for every list of text candidates, with
    [out] the deduplicated output: (1) the candidates are scanned in
    the order (start ascending, end descending), a permutation of the
    input, and (2) [out] is what the scan of them leaves; (3) [out]
    holds only candidates, (4) is sorted by ascending start and (5) is
    pairwise non-overlapping: every accepted entity starts at or after
    the end of every entity accepted before it; (6) ties go to the
    longer span: no candidate that starts where an accepted entity
    starts is longer than it; (7) every accepted entity passed both
    tests against the entity accepted just before it, so it starts at or
    after the end of the last accepted entity and ends after it; (8)
    nothing is accepted twice, and a candidate whose span shares a
    position with the span of another, accepted entity is not in
    [out]; (9) nothing is dropped otherwise: a candidate is in [out], or
    an accepted entity that precedes it in the scan order ends at or
    after its end or after its start, or it fails the tests against the
    initial [last_end = -1]; (10) in the scan, a candidate that starts
    before the end of the last accepted entity is dropped, and a
    candidate is accepted only if it starts at or after that end. *)
Theorem dedup_sorted_non_overlapping (entities : list TextEntity) :
  let candidates := sorted PIIDetector.key_lt entities in
  let out := PIIDetector._deduplicate_and_sort_entities entities in
  (Permutation candidates entities /\ StronglySorted key_le candidates) /\
  out = fst (fold_left PIIDetector.dedup_step candidates ([], (-1)%Z)) /\
  (forall e, In e out -> In e entities) /\
  StronglySorted start_le out /\
  StronglySorted ends_before out /\
  (forall e c, In e out -> In c entities -> start c = start e ->
               (end_ c <= end_ e)%Z) /\
  (accepted_run (-1) out /\ StronglySorted accepted_before out) /\
  (NoDup out /\
   forall a c, In a out -> c <> a -> overlaps a c -> ~ In c out) /\
  (forall c, In c entities ->
     In c out \/ (exists a, In a out /\ dropped_for a c) \/ dropped_at_once c) /\
  (forall (accepted : list TextEntity) (last_end : Z) (e : TextEntity),
      ((start e < last_end)%Z ->
       PIIDetector.dedup_step (accepted, last_end) e = (accepted, last_end)) /\
      (PIIDetector.dedup_step (accepted, last_end) e <> (accepted, last_end) ->
       PIIDetector.dedup_step (accepted, last_end) e = (accepted ++ [e], end_ e) /\
       (last_end <= start e)%Z)).
Proof.
  intros candidates out.
  pose proof (sorted_perm PIIDetector.key_lt entities) as Hp.
  pose proof (DedupFacts.candidates_sorted entities) as Hs.
  pose proof (DedupFacts.dedup_output entities) as Hout. fold candidates out in Hout.
  assert (Hord : StronglySorted accepted_before out).
  { rewrite Hout. apply DedupFacts.dedup_fold_order;
      [exact Hs | constructor | constructor]. }
  assert (Hrun : accepted_run (-1) out /\ forall x, In x out -> In x candidates).
  { destruct (DedupFacts.dedup_fold_run candidates [] (-1)) as (o & E & A & I).
    rewrite Hout, E. auto. }
  destruct Hrun as [Hrun Hin].
  assert (Hdrop : forall c, In c entities ->
            In c out \/ (exists a, In a out /\ dropped_for a c) \/
            dropped_at_once c).
  { intros c Hc. rewrite Hout. apply DedupFacts.dedup_fold_drops.
    - exact Hs.
    - now left.
    - eapply Permutation_in; [apply Permutation_sym, Hp | exact Hc]. }
  split; [split; assumption|].
  split; [exact Hout|].
  split; [intros e He; eapply Permutation_in; [exact Hp | now apply Hin]|].
  split; [eapply StronglySorted_impl; [|exact Hord];
          intros a b (H1 & _); unfold key_le, start_le in *; lia|].
  split; [eapply StronglySorted_impl; [|exact Hord];
          intros a b (_ & _ & H1); exact H1|].
  split; [|split; [split; assumption|split; [split|split; [exact Hdrop|]]]].
  - intros e c He Hc Hse.
    pose proof (DedupFacts.accepted_run_bounds out (-1) Hrun) as Hb.
    rewrite Forall_forall in Hb. specialize (Hb e He). cbv beta in Hb.
    destruct (Hdrop c Hc) as [Hc' | [(a & Ha & Hk & Hd) | Hd]].
    + destruct (DedupFacts.run_pairs _ _ _ _ Hord He Hc')
        as [<- | [(H1 & _) | (_ & H1 & _)]];
        unfold key_le in *; lia.
    + destruct (DedupFacts.run_pairs _ _ _ _ Hord He Ha)
        as [<- | [(H1 & H2 & _) | (_ & H1 & H2)]];
        unfold key_le in *; lia.
    + unfold dropped_at_once in Hd. lia.
  - apply (DedupFacts.run_NoDup accepted_before); [|exact Hord].
    intros x (_ & H1 & _). lia.
  - intros a c Ha Hne (Ho1 & Ho2) Hc.
    destruct (DedupFacts.run_pairs _ _ _ _ Hord Ha Hc)
      as [<- | [(_ & _ & H1) | (_ & _ & H1)]]; [congruence | lia | lia].
  - intros accepted last_end e. unfold PIIDetector.dedup_step. split.
    + intros H. destruct (end_ e <=? last_end)%Z; [reflexivity|].
      destruct (Z.ltb_spec (start e) last_end); [reflexivity | lia].
    + destruct (end_ e <=? last_end)%Z; [congruence|].
      destruct (Z.ltb_spec (start e) last_end); [congruence|].
      intros _. split; [reflexivity | assumption].
Qed.

Lemma dedup_sorted_non_overlapping_witness :
  let email := mkTextEntity (lit "john@corp.com") (lit "EMAIL") 4 17 in
  let name := mkTextEntity (lit "john") (lit "PERSON") 4 8 in
  let org := mkTextEntity (lit "corp") (lit "ORG") 9 13 in
  ~ In org (PIIDetector._deduplicate_and_sort_entities [org; name; email]) /\
  ~ In name (PIIDetector._deduplicate_and_sort_entities [org; name; email]) /\
  (end_ name <= end_ email)%Z.
Proof.
  intros email name org.
  pose proof (dedup_sorted_non_overlapping [org; name; email]) as H.
  cbv zeta in H. destruct H as (_ & _ & _ & _ & _ & Htie & _ & (_ & Hover) & _).
  assert (He : In email
                 (PIIDetector._deduplicate_and_sort_entities [org; name; email]))
    by (left; reflexivity).
  split; [|split].
  - apply (Hover email org He); [discriminate | unfold overlaps; simpl; lia].
  - apply (Hover email name He); [discriminate | unfold overlaps; simpl; lia].
  - apply (Htie email name He); [right; left; reflexivity | reflexivity].
Defined.

(** ** Placeholder identifiers of the two pipelines *)

(** The text redactor: counts 0 to 25 give the letters A to Z, and from
    26 on the count itself in decimal. *)
Lemma text_ids (n : nat) :
  (n < 26 -> Redactor._generate_placeholder_id n = [ascii_of_nat (65 + n)]) /\
  (26 <= n -> Redactor._generate_placeholder_id n = str_of_nat n).
Proof.
  unfold Redactor._generate_placeholder_id. split; intros H.
  - apply Nat.ltb_lt in H. now rewrite H.
  - apply Nat.ltb_ge in H. now rewrite H.
Qed.

Lemma text_ids_27 :
  map Redactor._generate_placeholder_id (seq 0 27) =
  map lit ["A"; "B"; "C"; "D"; "E"; "F"; "G"; "H"; "I"; "J"; "K"; "L"; "M";
           "N"; "O"; "P"; "Q"; "R"; "S"; "T"; "U"; "V"; "W"; "X"; "Y"; "Z";
           "26"]%string.
Proof. reflexivity. Qed.

(** C5 (where the code departs from it).  [ImageDetector.detect_faces]
    has no decimal fallback: on 27 faces in one image the first 26
    placeholders carry the letters A to Z as the text redactor's do, and
    the 27th is ["[FACE_[]"], where the encoding of the claim gives
    ["[FACE_26]"]. *)
Theorem image_ids_overflow :
  let placeholders :=
    option_map (map placeholder)
               (ImageDetector.detect_faces (lit "hog") face_locations_27) in
  option_map (firstn 26) placeholders =
    Some (map (fun n => Redactor.placeholder_of (lit "FACE")
                          (Redactor._generate_placeholder_id n)) (seq 0 26)) /\
  option_map (fun l => nth_error l 26) placeholders =
    Some (Some (lit "[FACE_[]")) /\
  Redactor.placeholder_of (lit "FACE") (Redactor._generate_placeholder_id 26) =
    lit "[FACE_26]" /\
  ImageDetector.face_placeholder 27 <>
    Some (Redactor.placeholder_of (lit "FACE")
            (Redactor._generate_placeholder_id 26)).
Proof.
  repeat split. vm_compute. discriminate.
Qed.

(** ** The image redactor *)

Module ImageFacts.

Import ImageRedactor.

Section WithCapabilities.

Variable Image : Type.
Variable draw : Image -> DrawOp -> option Image.
Variable utcnow : nat -> str.
Variable draw_borders : bool.
Variable border_color : str.
Variable border_width : Z.

Let label_text := _draw_label_text Image draw.
Let step := redact_entity Image draw utcnow draw_borders border_color border_width.

Let entry_of := ImageView.entry_of utcnow.



Lemma label_text_log (img : Image) (l : list LogRecord) (b : Box) (text : str) :
  forall r, In r l -> In r (snd (label_text img l b text)).
Proof.
  intros r Hr. destruct b as [[[x1 y1] x2] y2].
  unfold label_text, _draw_label_text.
  destruct ((x2 - x1 <? 10) || (y2 - y1 <? 10))%Z.
  - apply in_or_app. now left.
  - destruct (draw img _); assumption.
Qed.

(** Later entities neither remove a key of the mapping nor a record of
    the log. *)
Lemma step_grows (st : state Image) (e : Entity) :
  (forall k, In k (keys (mapping st)) -> In k (keys (mapping (step st e)))) /\
  (forall r, In r (log st) -> In r (log (step st e))) /\
  (NoDup (keys (mapping st)) -> NoDup (keys (mapping (step st e)))).
Proof.
  unfold step, redact_entity.
  destruct (bbox e) as [b|]; cbn [mapping log].
  2:{ repeat split; auto. intros r Hr. apply in_or_app. now left. }
  destruct (_draw_blackout_box _ _ _ _ _ _ b) as [img | img]; cbn [mapping log].
  2:{ repeat split; auto. intros r Hr. apply in_or_app. now left. }
  pose proof (label_text_log img (log st) b (placeholder e)) as Hl.
  unfold label_text in Hl.
  destruct (_draw_label_text Image draw img (log st) b (placeholder e))
    as [[img' | img'] l']; cbn [mapping log snd] in *.
  - repeat split.
    + intros k Hk. apply keys_dict_set_incl. now right.
    + intros r Hr. apply in_or_app. left. auto.
    + apply keys_dict_set_NoDup.
  - repeat split; auto; intros r Hr; apply in_or_app; left; auto.
Qed.

Lemma fold_grows (es : list Entity) (st : state Image) :
  (forall k, In k (keys (mapping st)) ->
             In k (keys (mapping (fold_left step es st)))) /\
  (forall r, In r (log st) -> In r (log (fold_left step es st))) /\
  (NoDup (keys (mapping st)) -> NoDup (keys (mapping (fold_left step es st)))).
Proof.
  revert st; induction es as [|e es IH]; intros st; [simpl; auto|].
  cbn [fold_left]. destruct (step_grows st e) as (A & B & C).
  destruct (IH (step st e)) as (A' & B' & C'). repeat split; auto.
Qed.





End WithCapabilities.

End ImageFacts.

(** C6.  When the entity list is empty, [redact] returns the unmodified
    document and an empty mapping, in the text variant always and in
    the image variant whenever the image opens (the image returned is
    the opened working copy, with no drawing call made on it); the image
    variant raises exactly when the imaging library cannot open the file,
    with the library's error, whatever the entity list; the text variant
    never raises. *)
Theorem empty_entity_list :
  (forall (text : str) (labels : option (list str)),
      Redactor.redact text [] labels = (text, [])) /\
  (forall (Image : Type) (Image_open : str -> Image + ImageRedactor.Raised)
          (draw : Image -> ImageRedactor.DrawOp -> option Image)
          (utcnow : nat -> str) (draw_borders : bool) (border_color : str)
          (border_width : Z) (image_path : str),
      (forall img, Image_open image_path = inl img ->
         ImageRedactor.redact Image Image_open draw utcnow draw_borders
                              border_color border_width image_path []
         = (inl (img, []), [ImageRedactor.InfoNoEntities])) /\
      (forall entities r,
         fst (ImageRedactor.redact Image Image_open draw utcnow draw_borders
                                   border_color border_width image_path entities)
         = inr r <-> Image_open image_path = inr r)).
Proof.
  split.
  - intros text [[|l ls]|]; reflexivity.
  - intros Image Image_open draw utcnow db bc bw path. split.
    + intros img H. unfold ImageRedactor.redact. now rewrite H.
    + intros entities r. unfold ImageRedactor.redact.
      destruct (Image_open path) as [img | []]; destruct entities; simpl;
        split; intros H; congruence.
Qed.

Lemma empty_entity_list_witness :
  ImageRedactor.redact canvas canvas_open canvas_draw clock_reading
                       true (lit "red") 2 (lit "test.jpg") []
  = (inl ([], []), [ImageRedactor.InfoNoEntities])
  /\ fst (ImageRedactor.redact canvas canvas_open canvas_draw clock_reading
                               true (lit "red") 2 (lit "missing.jpg") [tiny_face])
     = inr ImageRedactor.FileNotFoundError.
Proof.
  destruct empty_entity_list as [_ H].
  destruct (H canvas canvas_open canvas_draw clock_reading true (lit "red") 2%Z
              (lit "test.jpg")) as [H1 _].
  destruct (H canvas canvas_open canvas_draw clock_reading true (lit "red") 2%Z
              (lit "missing.jpg")) as [_ H2].
  split.
  - apply H1. reflexivity.
  - apply H2. reflexivity.
Defined.




(** ** Label filter and suffix order of the text redactor *)

Module SuffixFacts.

Import Redactor.

Lemma numbered_app (seen a b : list TextEntity) :
  numbered seen (a ++ b) = numbered seen a ++ numbered (seen ++ a) b.
Proof.
  revert seen; induction a as [|e a IH]; intros seen; simpl.
  - now rewrite app_nil_r.
  - rewrite IH, <- app_assoc. reflexivity.
Qed.

Lemma numbered_dict_length (seen es : list TextEntity) :
  length (numbered seen es) = length es.
Proof.
  revert seen; induction es as [|e es IH]; intros seen; simpl; auto.
Qed.

Lemma descending_prefix (pre post : list TextEntity) (e : TextEntity) :
  descending (pre ++ e :: post) -> Forall (fun a => (start e <= start a)%Z) pre.
Proof.
  induction pre as [|a pre IH]; intros H; [constructor|].
  simpl in H. inversion H as [|? ? Hs Ha]; subst. constructor.
  - rewrite Forall_forall in Ha. apply Ha, in_or_app. right. now left.
  - now apply IH.
Qed.

Lemma non_overlapping_filter (f : TextEntity -> bool) (E : list TextEntity) :
  non_overlapping E -> non_overlapping (filter f E).
Proof.
  induction 1 as [|a l Ha Hl IH]; simpl; [constructor|].
  destruct (f a); [|exact IH]. constructor; [|exact IH].
  eapply incl_Forall; [apply incl_filter | exact Ha].
Qed.

(** A span that overlaps none of the replaced entities lies within one
    of the stretches of [T] that the view keeps. *)
Lemma view_keeps_span (T : str) (es : list TextEntity) (phs : list str)
    (b : Z) (u : TextEntity) :
  chain b es -> length phs = length es ->
  (0 <= start u <= end_ u)%Z -> (end_ u <= b)%Z -> Forall (disjoint u) es ->
  exists lo hi,
    (0 <= lo <= start u)%Z /\ (end_ u <= hi <= b)%Z /\
    In (Gap (slice T lo hi)) (view T b es phs).
Proof.
  revert phs b; induction es as [|e es IH]; intros [|p phs] b Hc Hl Hu Hb Hd;
    simpl in Hl; try discriminate.
  - exists 0%Z, b. simpl. repeat split; auto; lia.
  - destruct Hc as (Hse & Heb & Hc). inversion Hd as [|? ? Hde Hd']; subst.
    cbn [view]. destruct (Z.le_gt_cases (end_ e) (start u)) as [H | H].
    + exists (end_ e), b. repeat split; try lia.
      apply in_or_app. right. right. now left.
    + assert (Hue : (end_ u <= start e)%Z) by (unfold disjoint in Hde; lia).
      destruct (IH phs (start e)) as (lo & hi & H1 & H2 & H3); auto.
      exists lo, hi. repeat split; try lia.
      apply in_or_app. now left.
Qed.

End SuffixFacts.

(** C9 (as the code has it).  When a non-empty [labels_to_redact] list is
    supplied, for every text and every entity list: (1) the call is the
    call without a list on the listed entities alone, so the entities
    whose label is not listed take no part in it; (2) the mapping has
    one entry for each listed entity, by descending start, with the
    entity's value, and no other entry.  When moreover the listed
    entities are non-overlapping spans detected in [T]: (3) the redacted
    text is [T] with the spans of the listed entities replaced by their
    placeholders and every other character as it was; (4) in particular
    every span of [T] that overlaps no listed entity, such as that of an
    entity whose label is not listed, lies within a stretch of [T] that
    the redacted text holds unchanged.  An empty list is treated as no
    list: the call is the one without [labels_to_redact]. *)
Theorem labels_filter_frame :
  (forall (T : str) (E : list TextEntity) (l : str) (ls : list str),
      let listed := filter (fun e => mem (label e) (l :: ls)) E in
      let es := Redactor.sorted_desc listed in
      let shown := view T (Z.of_nat (length T)) es (keys (numbered [] es)) in
      Redactor.redact T E (Some (l :: ls)) = Redactor.redact T listed None /\
      (snd (Redactor.redact T E (Some (l :: ls))) = numbered [] es /\
       values (numbered [] es) = map entity es /\
       length (snd (Redactor.redact T E (Some (l :: ls)))) = length listed /\
       Permutation es listed /\ descending es /\
       (forall e, In e es <-> In e E /\ In (label e) (l :: ls))) /\
      (Forall (detected_in T) listed -> non_overlapping listed ->
       fst (Redactor.redact T E (Some (l :: ls))) = flatten shown /\
       (forall u : TextEntity,
           (0 <= start u <= end_ u)%Z -> (end_ u <= Z.of_nat (length T))%Z ->
           Forall (disjoint u) listed ->
           exists lo hi,
             (0 <= lo <= start u)%Z /\
             (end_ u <= hi <= Z.of_nat (length T))%Z /\
             In (Gap (slice T lo hi)) shown))) /\
  (forall (T : str) (E : list TextEntity),
      Redactor.redact T E (Some []) = Redactor.redact T E None).
Proof.
  split; [|reflexivity].
  intros T E l ls listed es shown.
  assert (Hm : snd (Redactor.redact T E (Some (l :: ls))) = numbered [] es).
  { unfold Redactor.redact. cbn [snd].
    now destruct (redact_state_spec T E (Some (l :: ls))) as [_ ->]. }
  assert (Hp : Permutation es listed) by apply sorted_desc_perm.
  split; [reflexivity|]. split; [|intros HT HE; split].
  - split; [exact Hm|]. split; [apply numbered_values|].
    split; [|split; [exact Hp | split; [apply sorted_desc_descending|]]].
    + rewrite Hm. unfold keys. rewrite <- (length_map fst).
      fold (keys (numbered [] es)). rewrite numbered_length.
      now apply Permutation_length.
    + intros e. unfold es, listed. split.
      * intros H. apply (Permutation_in _ (sorted_desc_perm _)) in H.
        apply filter_In in H as [H1 H2]. apply mem_In in H2. auto.
      * intros [H1 H2].
        apply (Permutation_in _ (Permutation_sym (sorted_desc_perm _))).
        apply filter_In. split; [assumption | now apply mem_In].
  - change (Redactor.redact T E (Some (l :: ls)))
      with (Redactor.redact T listed None).
    rewrite (redact_view T listed None HT HE). reflexivity.
  - intros u Hu Hb Hd. apply SuffixFacts.view_keeps_span; auto.
    + exact (processed_chain T listed None HT HE).
    + apply numbered_length.
    + rewrite Forall_forall in *. intros e He. apply Hd.
      eapply Permutation_in; [exact Hp | exact He].
Qed.

Lemma labels_filter_frame_witness :
  Redactor.redact contact_text contact_entities (Some [lit "PERSON"; lit "EMAIL"])
  = (lit "Contact [PERSON_A] at [EMAIL_A], who works for Google.",
     [(lit "[EMAIL_A]", lit "jd@g.co"); (lit "[PERSON_A]", lit "John Doe")])
  /\ exists lo hi,
       (0 <= lo <= 43)%Z /\ (49 <= hi <= 50)%Z /\
       In (Gap (slice contact_text lo hi))
          (view contact_text 50
             (Redactor.sorted_desc
                (filter (fun e => mem (label e) [lit "PERSON"; lit "EMAIL"])
                        contact_entities))
             (keys (numbered []
                (Redactor.sorted_desc
                   (filter (fun e => mem (label e) [lit "PERSON"; lit "EMAIL"])
                           contact_entities))))).
Proof.
  destruct labels_filter_frame as [H _].
  pose proof (H contact_text contact_entities (lit "PERSON") [lit "EMAIL"]) as H'.
  cbv zeta in H'. destruct H' as (_ & (Hm & _) & Ht).
  assert (HT : Forall (detected_in contact_text) contact_entities)
    by (repeat constructor; simpl; lia).
  assert (HE : non_overlapping contact_entities)
    by (repeat constructor; unfold disjoint; simpl; lia).
  destruct Ht as [Hfst Hspan].
  - eapply incl_Forall; [apply incl_filter | exact HT].
  - apply SuffixFacts.non_overlapping_filter. exact HE.
  - split.
    + rewrite (surjective_pairing (Redactor.redact _ _ _)), Hfst, Hm. reflexivity.
    + apply (Hspan (mkTextEntity (lit "Google") (lit "ORG") 43 49)).
      * simpl. lia.
      * simpl. lia.
      * apply Forall_forall. intros x Hx. apply filter_In in Hx as [Hx Hl].
        destruct Hx as [<- | [<- | [<- | []]]];
          [unfold disjoint; simpl; lia | unfold disjoint; simpl; lia
          | vm_compute in Hl; discriminate].
Defined.

(** C9 (as stated) fails on the empty list: it is a list that was
    supplied and holds no label, yet the entity is replaced and gets a
    mapping entry. *)
Lemma labels_filter_counterexample :
  let T := lit "Call Bob" in
  let E := [mkTextEntity (lit "Bob") (lit "PERSON") 5 8] in
  Redactor.redact T E (Some []) =
    (lit "Call [PERSON_A]", [(lit "[PERSON_A]", lit "Bob")]) /\
  Redactor.redact T E (Some []) <> (T, []).
Proof.
  split; [reflexivity|]. vm_compute. discriminate.
Qed.

(** An entity that is not listed keeps its span only where no listed
    entity overlaps it: here the span of the organisation, which is not
    listed, is cut with that of the person. *)
Lemma labels_filter_overlapping_span :
  Redactor.redact (lit "John Smith Inc")
    [ mkTextEntity (lit "John Smith") (lit "PERSON") 0 10;
      mkTextEntity (lit "Smith Inc") (lit "ORG") 5 14 ]
    (Some [lit "PERSON"])
  = (lit "[PERSON_A] Inc", [(lit "[PERSON_A]", lit "John Smith")]).
Proof. reflexivity. Qed.

(** C10.  Within one call the entities are processed by descending start
    offset, and the suffix of an entity counts the entities of its label
    processed before it: the mapping, in insertion order, pairs each
    processed entity with the placeholder numbered that way.  So the
    entity of a label with the greatest start gets suffix [_A], and the
    one that appears first in the document the last suffix. *)
Theorem suffixes_by_descending_start
    (T : str) (E : list TextEntity) (labels : option (list str)) :
  let es := Redactor.sorted_desc (Redactor.entities_to_process E labels) in
  Permutation es (Redactor.entities_to_process E labels) /\
  descending es /\
  snd (Redactor.redact T E labels) = numbered [] es /\
  (forall (pre post : list TextEntity) (e : TextEntity),
      es = pre ++ e :: post ->
      Forall (fun a => (start e <= start a)%Z) pre /\
      nth_error (snd (Redactor.redact T E labels)) (length pre) =
        Some (Redactor.placeholder_of (label e)
                (Redactor._generate_placeholder_id (count_same (label e) pre)),
              entity e) /\
      (count_same (label e) pre = 0 ->
       nth_error (keys (snd (Redactor.redact T E labels))) (length pre) =
         Some (lit "[" ++ label e ++ lit "_A]"))).
Proof.
  intros es.
  assert (Hm : snd (Redactor.redact T E labels) = numbered [] es).
  { unfold Redactor.redact. cbn [snd].
    now destruct (redact_state_spec T E labels) as [_ ->]. }
  split; [apply sorted_desc_perm|].
  split; [apply sorted_desc_descending|].
  split; [exact Hm|].
  intros pre post e Hes.
  assert (Hn : nth_error (snd (Redactor.redact T E labels)) (length pre) =
               Some (Redactor.placeholder_of (label e)
                       (Redactor._generate_placeholder_id
                          (count_same (label e) pre)),
                     entity e)).
  { rewrite Hm, Hes, SuffixFacts.numbered_app.
    rewrite nth_error_app2; rewrite SuffixFacts.numbered_dict_length; [|lia].
    now rewrite Nat.sub_diag. }
  split; [|split].
  - apply (SuffixFacts.descending_prefix pre post). rewrite <- Hes.
    apply sorted_desc_descending.
  - exact Hn.
  - intros H0. unfold keys. rewrite nth_error_map, Hn. cbn [option_map fst].
    rewrite H0. reflexivity.
Qed.

Lemma suffixes_by_descending_start_witness :
  nth_error (snd (Redactor.redact sample_text sample_entities None)) 0
  = Some (lit "[PERSON_A]", lit "Ann")
  /\ nth_error (snd (Redactor.redact sample_text sample_entities None)) 1
     = Some (lit "[PERSON_B]", lit "Bob").
Proof.
  destruct (suffixes_by_descending_start sample_text sample_entities None)
    as (_ & _ & _ & H).
  split.
  - apply (H [] [mkTextEntity (lit "Bob") (lit "PERSON") 5 8]
             (mkTextEntity (lit "Ann") (lit "PERSON") 12 15)).
    reflexivity.
  - apply (H [mkTextEntity (lit "Ann") (lit "PERSON") 12 15] []
             (mkTextEntity (lit "Bob") (lit "PERSON") 5 8)).
    reflexivity.
Defined.

(* ================================================================== *)
(** * Further properties of the code *)
(* ================================================================== *)

(** ** More on the deduplication *)

Module DedupMore.

Import PIIDetector.

(** A stable sort leaves a sorted list as it is. *)
Lemma sorted_fixed {A : Type} (before : A -> A -> bool) (l : list A) :
  StronglySorted (not_after before) l -> sorted before l = l.
Proof.
  induction 1 as [|x l Hs IH Hx]; [reflexivity|].
  cbn [sorted fold_right]. fold (sorted before l). rewrite IH.
  destruct l as [|y l']; [reflexivity|].
  inversion Hx as [|? ? Hy _]; subst. cbn [insert_sorted].
  unfold not_after in Hy. now rewrite Hy.
Qed.

Lemma key_le_not_after (a b : TextEntity) : key_le a b -> not_after key_lt a b.
Proof. intros H. DedupFacts.key_lia. Qed.

(** The loop accepts an accepted run whole. *)
Lemma fold_accepted_run (l acc : list TextEntity) (last_end : Z) :
  accepted_run last_end l ->
  fst (fold_left dedup_step l (acc, last_end)) = acc ++ l.
Proof.
  revert acc last_end; induction l as [|e l IH]; intros acc last_end H.
  - simpl. now rewrite app_nil_r.
  - destruct H as (H1 & H2 & H3). cbn [fold_left].
    replace (dedup_step (acc, last_end) e) with (acc ++ [e], end_ e).
    + rewrite IH by assumption. now rewrite <- app_assoc.
    + unfold dedup_step.
      destruct (Z.leb_spec (end_ e) last_end); [lia|].
      destruct (Z.ltb_spec (start e) last_end); [lia | reflexivity].
Qed.

(** What the loop adds to the accepted list is an accepted run, sorted
    as the candidates are. *)
Lemma fold_gives_accepted_run (rest acc : list TextEntity) (last_end : Z) :
  StronglySorted key_le rest ->
  exists out,
    fst (fold_left dedup_step rest (acc, last_end)) = acc ++ out /\
    accepted_run last_end out /\ StronglySorted key_le out /\
    (forall x, In x out -> In x rest).
Proof.
  intros Hr; revert acc last_end.
  induction Hr as [|e rest Hr IH He]; intros acc last_end.
  - exists []. simpl. rewrite app_nil_r. repeat split; auto. constructor.
  - cbn [fold_left]. unfold dedup_step at 2.
    destruct (Z.leb_spec (end_ e) last_end) as [H1 | H1];
      [|destruct (Z.ltb_spec (start e) last_end) as [H2 | H2]].
    + destruct (IH acc last_end) as (out & E & A & S & I).
      exists out. repeat split; auto. intros x Hx. right. auto.
    + destruct (IH acc last_end) as (out & E & A & S & I).
      exists out. repeat split; auto. intros x Hx. right. auto.
    + destruct (IH (acc ++ [e]) (end_ e)) as (out & E & A & S & I).
      exists (e :: out). rewrite E, <- app_assoc. repeat split; auto.
      * constructor; [assumption|].
        rewrite Forall_forall in *. intros x Hx. auto.
      * intros x [<- | Hx]; [now left | right; auto].
Qed.

Lemma dedup_shape (entities : list TextEntity) :
  accepted_run (-1) (_deduplicate_and_sort_entities entities) /\
  StronglySorted key_le (_deduplicate_and_sort_entities entities).
Proof.
  unfold _deduplicate_and_sort_entities. destruct entities as [|e0 es].
  - split; [exact I | constructor].
  - destruct (fold_gives_accepted_run (sorted key_lt (e0 :: es)) [] (-1)
                (DedupFacts.candidates_sorted (e0 :: es)))
      as (out & E & A & S & _).
    rewrite E. simpl. auto.
Qed.

Lemma dedup_of_accepted_run (l : list TextEntity) :
  StronglySorted key_le l -> accepted_run (-1) l ->
  _deduplicate_and_sort_entities l = l.
Proof.
  intros Hs Ha. unfold _deduplicate_and_sort_entities.
  destruct l as [|e l']; [reflexivity|].
  rewrite sorted_fixed.
  - now rewrite fold_accepted_run.
  - eapply StronglySorted_impl; [exact key_le_not_after | exact Hs].
Qed.

Lemma fold_complete (rest acc : list TextEntity) (last_end : Z) :
  StronglySorted key_le rest -> scan_state acc rest last_end ->
  forall c, In c rest -> proper c ->
    In c (fst (fold_left dedup_step rest (acc, last_end))) \/
    exists a, In a (fst (fold_left dedup_step rest (acc, last_end))) /\
              covers_start a c.
Proof.
  intros Hr; revert acc last_end.
  induction Hr as [|e rest Hr IH He]; intros acc last_end Hst c Hc Hp;
    [destruct Hc|].
  assert (Hkeep : forall st x, In x (fst st) ->
                    In x (fst (fold_left dedup_step rest st))).
  { intros [acc' last'] x Hx.
    destruct (fold_gives_accepted_run rest acc' last' Hr) as (out & E & _).
    rewrite E. apply in_or_app. now left. }
  assert (Htail : scan_state acc rest last_end).
  { destruct Hst as [-> | (a & Ha & Ea & Fa)]; [now left|].
    right. exists a. inversion Fa; subst. auto. }
  cbn [fold_left].
  destruct (Z.leb_spec (end_ e) last_end) as [H1 | H1];
    [|destruct (Z.ltb_spec (start e) last_end) as [H2 | H2]].
  - replace (dedup_step (acc, last_end) e) with (acc, last_end)
      by (unfold dedup_step; destruct (Z.leb_spec (end_ e) last_end);
          [reflexivity | lia]).
    destruct Hc as [<- | Hc]; [|now apply IH].
    right. destruct Hst as [-> | (a & Ha & Ea & Fa)].
    + unfold proper in Hp. lia.
    + exists a. split; [apply (Hkeep (acc, last_end)); exact Ha|].
      inversion Fa; subst. unfold covers_start, start_le, proper in *. lia.
  - replace (dedup_step (acc, last_end) e) with (acc, last_end)
      by (unfold dedup_step; destruct (Z.leb_spec (end_ e) last_end);
          [reflexivity|];
          destruct (Z.ltb_spec (start e) last_end); [reflexivity | lia]).
    destruct Hc as [<- | Hc]; [|now apply IH].
    right. destruct Hst as [-> | (a & Ha & Ea & Fa)].
    + unfold proper in Hp. lia.
    + exists a. split; [apply (Hkeep (acc, last_end)); exact Ha|].
      inversion Fa; subst. unfold covers_start, start_le, proper in *. lia.
  - replace (dedup_step (acc, last_end) e) with (acc ++ [e], end_ e)
      by (unfold dedup_step; destruct (Z.leb_spec (end_ e) last_end); [lia|];
          destruct (Z.ltb_spec (start e) last_end); [lia | reflexivity]).
    destruct Hc as [<- | Hc].
    + left. apply (Hkeep (acc ++ [e], end_ e)). apply in_or_app. right. now left.
    + apply IH; auto. right. exists e. split; [|split; [reflexivity|]].
      * apply in_or_app. right. now left.
      * eapply Forall_impl; [|exact He]. intros b Hb.
        unfold key_le, start_le in *. lia.
Qed.

Lemma ends_before_run (l : list TextEntity) (last_end : Z) :
  StronglySorted ends_before l -> Forall proper l ->
  Forall (fun e => (last_end <= start e)%Z) l ->
  accepted_run last_end l /\ StronglySorted key_le l.
Proof.
  intros Hs; revert last_end.
  induction Hs as [|e l Hs IH He]; intros last_end Hp Hl.
  - split; [exact I | constructor].
  - inversion Hp as [|? ? Hp1 Hp2]; inversion Hl as [|? ? Hl1 Hl2]; subst.
    destruct (IH (end_ e) Hp2) as [A S].
    { eapply Forall_impl; [|exact He]. intros b Hb. exact Hb. }
    unfold proper in Hp1. split.
    + simpl. repeat split; try lia. exact A.
    + constructor; [exact S|].
      eapply Forall_impl; [|exact He]. intros b Hb.
      unfold ends_before in Hb. unfold key_le. lia.
Qed.

End DedupMore.

(** X1.  Deduplicating twice changes nothing more: the deduplicated list
    is a fixed point of [_deduplicate_and_sort_entities], for every list
    of candidates. *)
Theorem dedup_idempotent (entities : list TextEntity) :
  PIIDetector._deduplicate_and_sort_entities
    (PIIDetector._deduplicate_and_sort_entities entities)
  = PIIDetector._deduplicate_and_sort_entities entities.
Proof.
  destruct (DedupMore.dedup_shape entities) as [A S].
  now apply DedupMore.dedup_of_accepted_run.
Qed.

(** X2.  A list of non-empty spans at non-negative offsets in which
    every entity ends before the later ones start is returned as it is:
    nothing is dropped and nothing reordered. *)
Theorem dedup_keeps_clean_input (entities : list TextEntity) :
  StronglySorted ends_before entities -> Forall proper entities ->
  PIIDetector._deduplicate_and_sort_entities entities = entities.
Proof.
  intros Hs Hp.
  destruct (DedupMore.ends_before_run entities (-1) Hs Hp) as [A S].
  - eapply Forall_impl; [|exact Hp]. intros e He. unfold proper in He. lia.
  - now apply DedupMore.dedup_of_accepted_run.
Qed.

Lemma dedup_keeps_clean_input_witness :
  PIIDetector._deduplicate_and_sort_entities contact_entities = contact_entities.
Proof.
  apply dedup_keeps_clean_input.
  - repeat constructor; unfold ends_before; simpl; lia.
  - repeat constructor; simpl; lia.
Defined.

(** X3.  Nothing is lost without cause: every candidate with a non-empty
    span at a non-negative offset is in the output, or its start lies
    inside an accepted entity that starts no later. *)
Theorem dedup_drops_only_covered (entities : list TextEntity) (c : TextEntity) :
  In c entities -> proper c ->
  In c (PIIDetector._deduplicate_and_sort_entities entities) \/
  exists a, In a (PIIDetector._deduplicate_and_sort_entities entities) /\
            covers_start a c.
Proof.
  intros Hc Hp. unfold PIIDetector._deduplicate_and_sort_entities.
  destruct entities as [|e0 es]; [destruct Hc|].
  apply DedupMore.fold_complete; auto.
  - apply DedupFacts.candidates_sorted.
  - now left.
  - eapply Permutation_in; [apply Permutation_sym, sorted_perm | exact Hc].
Qed.

Lemma dedup_drops_only_covered_witness :
  let email := mkTextEntity (lit "john@corp.com") (lit "EMAIL") 4 17 in
  let org := mkTextEntity (lit "corp") (lit "ORG") 9 13 in
  In org (PIIDetector._deduplicate_and_sort_entities [org; email]) \/
  exists a, In a (PIIDetector._deduplicate_and_sort_entities [org; email]) /\
            covers_start a org.
Proof.
  apply dedup_drops_only_covered.
  - now left.
  - unfold proper. simpl. lia.
Defined.

(** ** The text pipeline: detect, redact, restore *)

Module PipelineFacts.

Import PIIDetectorRun.

Lemma sorted_pairs {A : Type} (R : A -> A -> Prop) (l : list A) :
  StronglySorted R l -> ForallOrdPairs R l.
Proof. induction 1; constructor; assumption. Qed.

Lemma ends_before_non_overlapping (l : list TextEntity) :
  StronglySorted ends_before l -> non_overlapping l.
Proof.
  intros H. apply sorted_pairs in H. unfold non_overlapping.
  induction H as [|a l Ha Hl IH]; constructor; [|exact IH].
  eapply Forall_impl; [|exact Ha]. intros b Hb. now left.
Qed.

Lemma supported_labels_bracket_free :
  Forall bracket_free (DEFAULT_LABELS ++ [lit "EMAIL"]).
Proof.
  repeat constructor; apply has_char_false; reflexivity.
Qed.

(** The shape of what [detect] returns, whatever the backends give. *)
Lemma detect_shape
    (finditer : str -> str -> list Match) (nlp : option (str -> list Span))
    (text : str) :
  StronglySorted ends_before (detect finditer nlp text) /\
  (forall e, In e (detect finditer nlp text) ->
     (exists s run_nlp, nlp = Some run_nlp /\ In s (run_nlp text) /\
        In (label_ s) (DEFAULT_LABELS ++ [lit "EMAIL"]) /\
        e = mkTextEntity (span_text s) (label_ s) (start_char s) (end_char s)) \/
     (exists m, In m (finditer EMAIL_REGEX text) /\
        e = mkTextEntity (group0 m) (lit "EMAIL") (match_start m) (match_end m))).
Proof.
  unfold detect. destruct nlp as [run_nlp|]; [|split; [constructor | intros e []]].
  set (cands := _ ++ _find_emails finditer text).
  assert (H : StronglySorted ends_before
                (PIIDetector._deduplicate_and_sort_entities cands) /\
              forall e, In e (PIIDetector._deduplicate_and_sort_entities cands) ->
                        In e cands).
  { unfold PIIDetector._deduplicate_and_sort_entities.
    destruct cands as [|c0 cs] eqn:Ec; [split; [constructor | intros e []]|].
    rewrite <- Ec.
    destruct (DedupFacts.dedup_fold (sorted PIIDetector.key_lt cands) [] (-1)
                (DedupFacts.candidates_sorted cands)
                (SSorted_nil _) (SSorted_nil _) (Forall_nil _) (Forall_nil _))
      as (_ & B & C).
    split; [exact B|]. intros e He. destruct (C e He) as [[] | Hin].
    eapply Permutation_in; [apply sorted_perm | exact Hin]. }
  destruct H as [H1 H2]. split; [exact H1|].
  intros e He. apply H2 in He. unfold cands in He.
  apply in_app_or in He as [He | He].
  - left. apply in_map_iff in He as (s & <- & Hs).
    apply filter_In in Hs as [Hs Hl]. apply mem_In in Hl.
    exists s, run_nlp. auto.
  - right. unfold _find_emails in He.
    apply in_map_iff in He as (m & <- & Hm). exists m. auto.
Qed.

(** Redaction followed by restoration, on any entity list that meets the
    conditions. *)
Lemma restore_redact (T : str) (E : list TextEntity) (labels : option (list str)) :
  Forall (detected_in T) E -> non_overlapping E -> ~ In lbr T ->
  Forall (fun e => bracket_free (label e)) E ->
  Restorer.restore (fst (Redactor.redact T E labels))
                   (snd (Redactor.redact T E labels)) = T.
Proof.
  intros HT HE Hl Hb.
  rewrite redact_view by assumption. cbn [fst snd].
  set (es := Redactor.sorted_desc (Redactor.entities_to_process E labels)).
  rewrite restore_flatten.
  - rewrite RoundTrip.subst_numbered_view.
    + apply slice_whole.
    + now apply processed_chain.
    + lia.
    + apply RoundTrip.processed_Forall.
      eapply Forall_impl; [|exact HT]. intros e (_ & _ & H). exact H.
  - apply numbered_keys_bracketed. now apply RoundTrip.processed_Forall.
  - rewrite numbered_values, Forall_map.
    apply RoundTrip.processed_Forall.
    eapply Forall_impl; [|exact HT]. intros e (_ & _ & ->).
    now apply slice_no_char.
  - apply RoundTrip.view_ok; [assumption|].
    apply numbered_keys_bracketed. now apply RoundTrip.processed_Forall.
Qed.

Lemma filter_perm {A : Type} (f : A -> bool) (l l' : list A) :
  Permutation l l' -> Permutation (filter f l) (filter f l').
Proof.
  induction 1 as [|x l l' H IH|x y l|l l' l'' H1 IH1 H2 IH2]; simpl.
  - constructor.
  - destruct (f x); [now constructor | assumption].
  - destruct (f x), (f y); try reflexivity. apply perm_swap.
  - now transitivity (filter f l').
Qed.

Lemma entities_to_process_perm (E E' : list TextEntity)
    (labels : option (list str)) :
  Permutation E E' ->
  Permutation (Redactor.entities_to_process E labels)
              (Redactor.entities_to_process E' labels).
Proof.
  intros H. destruct labels as [[|l ls]|]; simpl; auto. now apply filter_perm.
Qed.

(** Two sorted lists with the same elements are the same list, when no
    two different elements compare both ways. *)
Lemma sorted_perm_unique {A : Type} (R : A -> A -> Prop) (l1 l2 : list A) :
  StronglySorted R l1 -> StronglySorted R l2 -> Permutation l1 l2 ->
  (forall a b, In a l1 -> In b l1 -> R a b -> R b a -> a = b) ->
  l1 = l2.
Proof.
  intros H1; revert l2. induction H1 as [|a l1 Hs1 IH Ha]; intros l2 H2 Hp Hanti.
  - apply Permutation_nil in Hp. now subst.
  - destruct H2 as [|b l2 Hs2 Hb].
    + apply Permutation_sym, Permutation_nil in Hp. discriminate.
    + assert (a = b).
      { assert (Hab : In a (b :: l2))
          by (eapply Permutation_in; [exact Hp | now left]).
        assert (Hba : In b (a :: l1))
          by (eapply Permutation_in; [apply Permutation_sym, Hp | now left]).
        destruct Hab as [-> | Hab]; [reflexivity|].
        destruct Hba as [-> | Hba]; [reflexivity|].
        rewrite Forall_forall in Ha, Hb.
        apply Hanti; [now left | now right | auto | auto]. }
      subst b. f_equal. apply IH; auto.
      * eapply Permutation_cons_inv, Hp.
      * intros x y Hx Hy. apply Hanti; now right.
Qed.

Lemma proper_distinct_starts (E : list TextEntity) (a b : TextEntity) :
  Forall proper E -> non_overlapping E -> In a E -> In b E ->
  start a = start b -> a = b.
Proof.
  intros Hp Hn Ha Hb Hs.
  destruct (ForallOrdPairs_In Hn a b Ha Hb) as [E1 | [E1 | E1]]; [assumption| |];
    rewrite Forall_forall in Hp;
    pose proof (Hp a Ha); pose proof (Hp b Hb);
    unfold proper, disjoint in *; lia.
Qed.

End PipelineFacts.

(** X4.  Whatever the two backends return, [detect] gives a list in
    which every entity ends before the later ones start, and each of its
    entities is an entity of the language model whose label is one of
    the supported labels, or a match of the e-mail pattern labelled
    [EMAIL]; without a loaded model it gives the empty list. *)
Theorem detect_output
    (finditer : str -> str -> list PIIDetectorRun.Match)
    (nlp : option (str -> list PIIDetectorRun.Span)) (text : str) :
  StronglySorted ends_before (PIIDetectorRun.detect finditer nlp text) /\
  (forall e, In e (PIIDetectorRun.detect finditer nlp text) ->
     In (label e) (PIIDetectorRun.DEFAULT_LABELS ++ [lit "EMAIL"]) /\
     ((exists s run_nlp, nlp = Some run_nlp /\ In s (run_nlp text) /\
         e = mkTextEntity (PIIDetectorRun.span_text s) (PIIDetectorRun.label_ s)
               (PIIDetectorRun.start_char s) (PIIDetectorRun.end_char s)) \/
      (exists m, In m (finditer PIIDetectorRun.EMAIL_REGEX text) /\
         e = mkTextEntity (PIIDetectorRun.group0 m) (lit "EMAIL")
               (PIIDetectorRun.match_start m) (PIIDetectorRun.match_end m)))) /\
  (nlp = None -> PIIDetectorRun.detect finditer nlp text = []).
Proof.
  destruct (PipelineFacts.detect_shape finditer nlp text) as [H1 H2].
  split; [exact H1 | split].
  - intros e He. destruct (H2 e He) as [(s & r & En & Hs & Hl & ->) | (m & Hm & ->)].
    + split; [exact Hl | left; exists s, r; auto].
    + split; [apply in_or_app; right; now left | right; exists m; auto].
  - intros ->. reflexivity.
Qed.

Lemma detect_output_witness :
  PIIDetectorRun.detect (fun _ _ => []) None (lit "Call Bob") = [].
Proof.
  apply (detect_output (fun _ _ => []) None (lit "Call Bob")). reflexivity.
Defined.

(** X5.  The text pipeline end to end.  When the language model is
    loaded, the text holds no opening bracket, and the entities of the
    model and the matches of the e-mail pattern are non-empty spans of
    the text carrying the text of their span, then detecting, redacting
    (with any [labels_to_redact]) and restoring the redacted text with
    the mapping gives the text back, however the two backends overlap. *)
Theorem pipeline_round_trip
    (finditer : str -> str -> list PIIDetectorRun.Match)
    (run_nlp : str -> list PIIDetectorRun.Span)
    (T : str) (labels : option (list str)) :
  Forall (PIIDetectorRun.span_in T) (run_nlp T) ->
  Forall (PIIDetectorRun.match_in T) (finditer PIIDetectorRun.EMAIL_REGEX T) ->
  ~ In lbr T ->
  let E := PIIDetectorRun.detect finditer (Some run_nlp) T in
  Restorer.restore (fst (Redactor.redact T E labels))
                   (snd (Redactor.redact T E labels)) = T.
Proof.
  intros Hs Hm Hl E.
  destruct (PipelineFacts.detect_shape finditer (Some run_nlp) T) as [H1 H2].
  fold E in H1, H2. rewrite Forall_forall in Hs, Hm.
  apply PipelineFacts.restore_redact; auto.
  - apply Forall_forall. intros e He.
    destruct (H2 e He) as [(s & r & [= <-] & Hin & _ & ->) | (m & Hin & ->)].
    + exact (Hs s Hin).
    + exact (Hm m Hin).
  - now apply PipelineFacts.ends_before_non_overlapping.
  - apply Forall_forall. intros e He.
    pose proof PipelineFacts.supported_labels_bracket_free as Hb.
    rewrite Forall_forall in Hb.
    destruct (H2 e He) as [(s & r & _ & _ & Hlab & ->) | (m & _ & ->)].
    + exact (Hb _ Hlab).
    + apply Hb, in_or_app. right. now left.
Qed.

Lemma pipeline_round_trip_witness :
  let finditer := fun (_ _ : str) =>
    [PIIDetectorRun.mkMatch (lit "jd@g.co") 20 27] in
  let run_nlp := fun (_ : str) =>
    [PIIDetectorRun.mkSpan (lit "John Doe") (lit "PERSON") 8 16;
     PIIDetectorRun.mkSpan (lit "g.co") (lit "ORG") 23 27;
     PIIDetectorRun.mkSpan (lit "Google") (lit "ORG") 43 49] in
  let E := PIIDetectorRun.detect finditer (Some run_nlp) contact_text in
  Restorer.restore (fst (Redactor.redact contact_text E None))
                   (snd (Redactor.redact contact_text E None)) = contact_text.
Proof.
  apply pipeline_round_trip.
  - repeat constructor; simpl; lia.
  - repeat constructor; simpl; lia.
  - apply has_char_false. reflexivity.
Defined.

(** X6.  In one call no placeholder is generated twice, whatever the
    labels are: the mapping has exactly one entry for each processed
    entity, and no entry overwrites another. *)
Theorem placeholders_unique (T : str) (E : list TextEntity)
    (labels : option (list str)) :
  NoDup (keys (snd (Redactor.redact T E labels))) /\
  length (snd (Redactor.redact T E labels)) =
    length (Redactor.entities_to_process E labels).
Proof.
  unfold Redactor.redact. cbn [snd].
  destruct (redact_state_spec T E labels) as [_ ->]. split.
  - apply numbered_keys_NoDup.
  - rewrite SuffixFacts.numbered_dict_length.
    apply Permutation_length, sorted_desc_perm.
Qed.

(** X7.  The order in which the detector hands over the entities does
    not matter: for non-overlapping entities with non-empty spans at
    non-negative offsets, any reordering of the list gives the same
    redacted text and the same mapping. *)
Theorem redact_order_independent (T : str) (E E' : list TextEntity)
    (labels : option (list str)) :
  Permutation E E' -> Forall proper E -> non_overlapping E ->
  Redactor.redact T E labels = Redactor.redact T E' labels.
Proof.
  intros Hp Hpr Hn.
  assert (Hs : Redactor.sorted_desc (Redactor.entities_to_process E labels) =
               Redactor.sorted_desc (Redactor.entities_to_process E' labels)).
  { apply (PipelineFacts.sorted_perm_unique
             (fun a b => (start b <= start a)%Z)).
    - apply sorted_desc_descending.
    - apply sorted_desc_descending.
    - rewrite !sorted_desc_perm.
      now apply PipelineFacts.entities_to_process_perm.
    - intros a b Ha Hb H1 H2.
      apply (PipelineFacts.proper_distinct_starts E); auto; try lia;
        eapply entities_to_process_incl, Permutation_in;
        try apply sorted_desc_perm; eassumption. }
  unfold Redactor.redact, Redactor.redact_state. now rewrite Hs.
Qed.

Lemma redact_order_independent_witness :
  Redactor.redact sample_text sample_entities None =
  Redactor.redact sample_text (List.rev sample_entities) None.
Proof.
  apply redact_order_independent.
  - apply Permutation_rev.
  - repeat constructor; simpl; lia.
  - repeat constructor; unfold disjoint; simpl; lia.
Defined.

(** ** More on the restorer *)

Module RestorerMore.

Import Restorer.

Lemma subst_all_twice (m : dict str) (its : list piece) :
  subst_all m (subst_all m its) = subst_all m its.
Proof.
  unfold subst_all. rewrite map_map. apply map_ext.
  intros [g | p]; [reflexivity|].
  destruct (dict_get m p) eqn:E; [reflexivity | now rewrite E].
Qed.

Lemma dict_get_In {V : Type} (m : dict V) (k : str) (v : V) :
  NoDup (keys m) -> (dict_get m k = Some v <-> In (k, v) m).
Proof.
  induction m as [|[k' v'] m IH]; simpl; intros Hn.
  - split; [discriminate | tauto].
  - inversion Hn as [|? ? Hk Hn']; subst.
    destruct (str_eqb k k') eqn:E.
    + apply str_eqb_eq in E. subst k'. split.
      * intros [= ->]. now left.
      * intros [[= ->] | Hin]; [reflexivity|].
        exfalso. apply Hk. apply (in_map fst) in Hin. exact Hin.
    + apply str_eqb_neq in E. rewrite IH by assumption. split; [auto|].
      intros [[= -> ->] | Hin]; [congruence | assumption].
Qed.

Lemma dict_get_perm {V : Type} (m m' : dict V) (k : str) :
  NoDup (keys m) -> Permutation m m' -> dict_get m k = dict_get m' k.
Proof.
  intros Hn Hp.
  assert (Hn' : NoDup (keys m'))
    by (eapply Permutation_NoDup; [apply Permutation_map, Hp | exact Hn]).
  destruct (dict_get m k) as [v|] eqn:E.
  - symmetry. apply dict_get_In; [assumption|].
    eapply Permutation_in; [exact Hp|]. now apply dict_get_In.
  - destruct (dict_get m' k) as [v'|] eqn:E'; [|reflexivity].
    apply dict_get_In in E'; [|assumption].
    apply (Permutation_in _ (Permutation_sym Hp)) in E'.
    apply dict_get_In in E'; [congruence | assumption].
Qed.

Lemma log_keys (m : dict str) (t : str) :
  map record_key (snd (restore_run t m)) = keys m.
Proof.
  unfold restore_run. revert t; induction m as [|[k v] m IH]; intros t;
    [reflexivity|].
  cbn [fold_left keys map fst].
  destruct (restore_step (t, []) (k, v)) as [t' l'] eqn:E.
  rewrite fold_restore_step_log, map_app. fold (keys m). rewrite IH.
  unfold restore_step in E.
  destruct (contains k t); injection E as <- <-; reflexivity.
Qed.

Lemma run_all_absent (m : dict str) (t : str) :
  (forall k, In k (keys m) -> contains k t = false) ->
  restore_run t m = (t, map WarningNotFound (keys m)).
Proof.
  induction m as [|[k v] m IH]; intros H; [reflexivity|].
  rewrite UnusedFacts.restore_run_absent by (apply H; now left).
  rewrite IH by (intros k' Hk'; apply H; now right).
  unfold restore. rewrite IH by (intros k' Hk'; apply H; now right).
  reflexivity.
Qed.

End RestorerMore.

(** X8.  Restoring twice is restoring once, when the keys are bracketed
    tokens, no original value holds an opening bracket and the output is
    made of bracket-free stretches and bracketed tokens: after the first
    pass no key is left in the text. *)
Theorem restore_idempotent (m : dict str) (its : list piece) :
  Forall bracketed (keys m) -> Forall (fun v => ~ In lbr v) (values m) ->
  Forall piece_ok its ->
  Restorer.restore (Restorer.restore (flatten its) m) m =
  Restorer.restore (flatten its) m.
Proof.
  intros Hk Hv Hits.
  rewrite (restore_flatten m its) by assumption.
  rewrite restore_flatten; auto.
  - now rewrite RestorerMore.subst_all_twice.
  - now apply UnusedFacts.subst_all_ok.
Qed.

Lemma restore_idempotent_witness :
  Restorer.restore
    (Restorer.restore
       (flatten [Gap (lit "Dear "); Tok (lit "[PERSON_A]"); Gap (lit ", hi")])
       demo_mapping) demo_mapping
  = Restorer.restore
      (flatten [Gap (lit "Dear "); Tok (lit "[PERSON_A]"); Gap (lit ", hi")])
      demo_mapping.
Proof.
  apply restore_idempotent.
  - repeat constructor; apply bracketedb_true; reflexivity.
  - repeat constructor; apply has_char_false; reflexivity.
  - repeat constructor;
      try (apply bracketedb_true; reflexivity);
      apply has_char_false; reflexivity.
Defined.

(** X9.  Under the same conditions the order of the entries of the
    mapping does not matter: a mapping with the same entries in another
    order restores the same text. *)
Theorem restore_order_independent (m m' : dict str) (its : list piece) :
  Permutation m m' -> NoDup (keys m) ->
  Forall bracketed (keys m) -> Forall (fun v => ~ In lbr v) (values m) ->
  Forall piece_ok its ->
  Restorer.restore (flatten its) m = Restorer.restore (flatten its) m'.
Proof.
  intros Hp Hn Hk Hv Hits.
  rewrite !restore_flatten; auto.
  - f_equal. unfold subst_all. apply map_ext. intros [g | p]; [reflexivity|].
    now rewrite (RestorerMore.dict_get_perm m m' p Hn Hp).
  - eapply Permutation_Forall; [apply Permutation_map, Hp | exact Hk].
  - eapply Permutation_Forall; [apply Permutation_map, Hp | exact Hv].
Qed.

Lemma restore_order_independent_witness :
  Restorer.restore
    (flatten [Tok (lit "[EMAIL_A]"); Gap (lit " is "); Tok (lit "[PERSON_A]")])
    demo_mapping
  = Restorer.restore
      (flatten [Tok (lit "[EMAIL_A]"); Gap (lit " is "); Tok (lit "[PERSON_A]")])
      (List.rev demo_mapping).
Proof.
  apply restore_order_independent.
  - apply Permutation_rev.
  - repeat constructor; simpl; intuition discriminate.
  - repeat constructor; apply bracketedb_true; reflexivity.
  - repeat constructor; apply has_char_false; reflexivity.
  - repeat constructor;
      try (apply bracketedb_true; reflexivity);
      apply has_char_false; reflexivity.
Defined.

(** X10.  Every entry of the mapping is accounted for in the log, once
    and in the order of the mapping: the placeholders of the log records
    are the keys of the mapping. *)
Theorem restore_log_accounts_for_every_entry (llm_output : str) (m : dict str) :
  map record_key (snd (Restorer.restore_run llm_output m)) = keys m.
Proof. apply RestorerMore.log_keys. Qed.

(** X11.  When no key of the mapping occurs in the output, the output
    is returned as it is and every entry is logged as not found. *)
Theorem restore_without_placeholders (llm_output : str) (m : dict str) :
  (forall k, In k (keys m) -> contains k llm_output = false) ->
  Restorer.restore_run llm_output m =
    (llm_output, map Restorer.WarningNotFound (keys m)).
Proof. apply RestorerMore.run_all_absent. Qed.

Lemma restore_without_placeholders_witness :
  Restorer.restore_run (lit "I cannot help with that.") demo_mapping =
    (lit "I cannot help with that.",
     [Restorer.WarningNotFound (lit "[PERSON_A]");
      Restorer.WarningNotFound (lit "[EMAIL_A]")]).
Proof.
  apply restore_without_placeholders.
  intros k [<- | [<- | []]]; reflexivity.
Defined.

(** ** Offsets outside the text *)

(** X12.  The offsets of an entity are not validated, they act as slice
    bounds: a sole entity that lies at or beyond the end of the text has
    its placeholder appended to the unchanged text, and a sole entity
    whose end lies before its start (both inside the text) removes
    nothing and leaves the text between the two offsets on both sides of
    the placeholder. *)
Theorem redact_offsets_unchecked (T : str) (e : TextEntity) :
  let p := Redactor.placeholder_of (label e) (lit "A") in
  ((Z.of_nat (length T) <= start e)%Z -> (Z.of_nat (length T) <= end_ e)%Z ->
   Redactor.redact T [e] None = (T ++ p, [(p, entity e)])) /\
  ((0 <= end_ e <= start e)%Z -> (start e <= Z.of_nat (length T))%Z ->
   Redactor.redact T [e] None =
     (slice T 0 (end_ e) ++ slice T (end_ e) (start e) ++ p
        ++ slice T (end_ e) (start e) ++ slice_from T (start e),
      [(p, entity e)])).
Proof.
  intros p.
  assert (E : Redactor.redact T [e] None = (text_step T e p, [(p, entity e)]))
    by reflexivity.
  rewrite E. unfold text_step. split.
  - intros Hs He. f_equal. f_equal.
    + rewrite slice_to_nonneg by lia. apply firstn_all2. lia.
    + rewrite slice_from_nonneg by lia. rewrite skipn_all2 by lia.
      apply app_nil_r.
  - intros He Hs. f_equal.
    rewrite !slice_to_nonneg, !slice_from_nonneg, slice_prefix,
            slice_nonneg by lia.
    set (a := Z.to_nat (end_ e)). set (b := Z.to_nat (start e)).
    assert (Hab : a <= b) by lia.
    assert (Hb : b <= length T) by lia.
    clearbody a b.
    assert (E1 : firstn b T = firstn a T ++ skipn a (firstn b T)).
    { rewrite <- (firstn_skipn a (firstn b T)) at 1.
      now rewrite firstn_firstn, Nat.min_l by lia. }
    assert (E2 : skipn a T = skipn a (firstn b T) ++ skipn b T).
    { rewrite <- (firstn_skipn b T) at 1. rewrite skipn_app, length_firstn.
      assert (X : a - Nat.min b (length T) = 0) by lia.
      now rewrite X. }
    rewrite E1 at 1. rewrite E2. now rewrite <- !app_assoc.
Qed.

Lemma redact_offsets_unchecked_witness :
  Redactor.redact (lit "Call Bob") [mkTextEntity (lit "x") (lit "PERSON") 20 25] None
  = (lit "Call Bob[PERSON_A]", [(lit "[PERSON_A]", lit "x")])
  /\ Redactor.redact (lit "Call Bob") [mkTextEntity (lit "x") (lit "PERSON") 6 2] None
     = (lit "Call B[PERSON_A]ll Bob", [(lit "[PERSON_A]", lit "x")]).
Proof.
  destruct (redact_offsets_unchecked (lit "Call Bob")
              (mkTextEntity (lit "x") (lit "PERSON") 20 25)) as [H1 _].
  destruct (redact_offsets_unchecked (lit "Call Bob")
              (mkTextEntity (lit "x") (lit "PERSON") 6 2)) as [_ H2].
  split.
  - apply H1; simpl; lia.
  - apply H2; simpl; lia.
Defined.

(** ** More on the image detector *)

Module ImageDetectorMore.

Import ImageDetector.

Lemma face_placeholder_letter (k : nat) :
  k < 26 ->
  face_placeholder (k + 1) =
    Some (Redactor.placeholder_of (lit "FACE") (Redactor._generate_placeholder_id k)).
Proof.
  intros H. unfold face_placeholder, chr, Redactor._generate_placeholder_id.
  destruct (Nat.ltb_spec (64 + (k + 1)) 256); [|lia].
  destruct (Nat.ltb_spec k 26); [|lia].
  change (ord "A"%char) with 65.
  replace (64 + (k + 1)) with (65 + k) by lia. reflexivity.
Qed.

Lemma fold_face_step (face_model : str) (locs : list (Z * Z * Z * Z))
    (results : list Entity) (k : nat) :
  k + length locs <= 26 ->
  fold_left (face_step face_model) locs (Some (results, k)) =
    Some (results ++ map (fun il => face_of face_model (fst il) (snd il))
                         (combine (seq k (length locs)) locs),
          k + length locs).
Proof.
  revert results k; induction locs as [|loc locs IH]; intros results k H.
  - simpl. now rewrite app_nil_r, Nat.add_0_r.
  - simpl in H. cbn [fold_left length seq combine map fst snd].
    assert (E : face_step face_model (Some (results, k)) loc =
                Some (results ++ [face_of face_model k loc], k + 1)).
    { unfold face_step. destruct loc as [[[top right_] bottom] left_].
      rewrite face_placeholder_letter by lia. reflexivity. }
    rewrite E, IH by lia. rewrite <- app_assoc.
    replace (k + 1) with (S k) by lia. cbn [app].
    do 2 f_equal. lia.
Qed.

Lemma map_combine_fst {A B C : Type} (g : A -> C) (a : list A) (b : list B) :
  length a = length b -> map (fun ab => g (fst ab)) (combine a b) = map g a.
Proof.
  revert b; induction a as [|x a IH]; intros [|y b] H; simpl in *;
    try discriminate; [reflexivity|].
  f_equal. apply IH. lia.
Qed.

Lemma NoDup_map_inj {A B : Type} (f : A -> B) (l : list A) :
  (forall x y, In x l -> In y l -> f x = f y -> x = y) ->
  NoDup l -> NoDup (map f l).
Proof.
  intros Hinj Hn. induction Hn as [|x l Hx Hn IH]; simpl; constructor.
  - intros Hin. apply in_map_iff in Hin as (y & E & Hy).
    assert (y = x) by (apply Hinj; [now right | now left | exact E]).
    subst. tauto.
  - apply IH. intros a b Ha Hb. apply Hinj; now right.
Qed.

Lemma list_sum_dict_set (d : dict nat) (k : str) :
  list_sum (values (dict_set k (match dict_get d k with
                                | Some n => n
                                | None => 0
                                end + 1) d)) = list_sum (values d) + 1.
Proof.
  induction d as [|[k' n'] d IH]; [reflexivity|].
  cbn [dict_get dict_set]. destruct (str_eqb k k') eqn:E.
  - unfold values. cbn [map snd list_sum fold_right]. lia.
  - unfold values in *. cbn [map snd list_sum fold_right].
    unfold list_sum in IH. rewrite IH. lia.
Qed.

Lemma count_type_snoc (t : str) (l : list Entity) (e : Entity) :
  count_type t (l ++ [e]) =
  count_type t l + (if str_eqb (type e) t then 1 else 0).
Proof.
  unfold count_type. rewrite filter_app, length_app. simpl.
  destruct (str_eqb (type e) t); reflexivity.
Qed.

(** The counter dictionary after the entities [seen]. *)
Lemma fold_count_step (l seen : list Entity) (d : dict nat) :
  NoDup (keys d) ->
  (forall t, dict_get d t =
             if count_type t seen =? 0 then None else Some (count_type t seen)) ->
  let d' := fold_left ImageDetectorRun.count_step l d in
  NoDup (keys d') /\
  (forall t, dict_get d' t =
             if count_type t (seen ++ l) =? 0 then None
             else Some (count_type t (seen ++ l))) /\
  list_sum (values d') = list_sum (values d) + length l.
Proof.
  revert seen d; induction l as [|e l IH]; intros seen d Hn Hd; cbv zeta.
  - simpl. rewrite app_nil_r, Nat.add_0_r. auto.
  - cbn [fold_left].
    destruct (IH (seen ++ [e]) (ImageDetectorRun.count_step d e)) as (A & B & C).
    + apply keys_dict_set_NoDup, Hn.
    + intros t. unfold ImageDetectorRun.count_step. rewrite count_type_snoc.
      destruct (str_eqb (type e) t) eqn:E.
      * apply str_eqb_eq in E. subst t. rewrite dict_get_set_same, Hd.
        destruct (Nat.eqb_spec (count_type (type e) seen) 0) as [-> | Hne].
        -- reflexivity.
        -- destruct (Nat.eqb_spec (count_type (type e) seen + 1) 0); [lia|].
           reflexivity.
      * apply str_eqb_neq in E. rewrite dict_get_set_other by congruence.
        rewrite Hd, Nat.add_0_r. reflexivity.
    + rewrite <- app_assoc in B. cbn [app] in B.
      repeat split; auto. rewrite C. unfold ImageDetectorRun.count_step.
      rewrite list_sum_dict_set. simpl. lia.
Qed.

End ImageDetectorMore.

(** X13.  Up to 26 faces, [detect_faces] (run by [detect], with the
    counters reset) returns one entity per face location, in order, with
    the box reordered to (left, top, right, bottom) and the placeholder
    the text redactor's encoding gives for the face's rank; so these
    placeholders are pairwise distinct bracketed tokens. *)
Theorem detect_faces_up_to_26 (face_model : str) (locs : list (Z * Z * Z * Z)) :
  length locs <= 26 ->
  ImageDetector.detect_faces face_model locs =
    Some (map (fun il => face_of face_model (fst il) (snd il))
              (combine (seq 0 (length locs)) locs)) /\
  (forall results,
      ImageDetector.detect_faces face_model locs = Some results ->
      length results = length locs /\
      NoDup (map placeholder results) /\
      Forall bracketed (map placeholder results)).
Proof.
  intros H.
  assert (E : ImageDetector.detect_faces face_model locs =
              Some (map (fun il => face_of face_model (fst il) (snd il))
                        (combine (seq 0 (length locs)) locs))).
  { unfold ImageDetector.detect_faces.
    now rewrite ImageDetectorMore.fold_face_step by lia. }
  split; [exact E|]. intros results Hr. rewrite E in Hr. injection Hr as <-.
  assert (Hp : map placeholder
                 (map (fun il => face_of face_model (fst il) (snd il))
                      (combine (seq 0 (length locs)) locs)) =
               map (fun i => Redactor.placeholder_of (lit "FACE")
                               (Redactor._generate_placeholder_id i))
                   (seq 0 (length locs))).
  { rewrite map_map.
    rewrite <- (ImageDetectorMore.map_combine_fst
                  (fun i => Redactor.placeholder_of (lit "FACE")
                              (Redactor._generate_placeholder_id i))
                  (seq 0 (length locs)) locs) by now rewrite length_seq.
    apply map_ext. intros [i [[[t r] b] l]]. reflexivity. }
  split; [|split].
  - rewrite length_map, length_combine, length_seq. lia.
  - rewrite Hp. apply ImageDetectorMore.NoDup_map_inj; [|apply seq_NoDup].
    intros x y _ _ Hxy. now apply placeholder_of_inj in Hxy.
  - rewrite Hp. apply Forall_map, Forall_forall. intros i _.
    apply placeholder_of_bracketed. split; apply has_char_false; reflexivity.
Qed.

Lemma detect_faces_up_to_26_witness :
  ImageDetector.detect_faces (lit "hog") [(10, 40, 50, 5)%Z; (10, 90, 50, 60)%Z]
  = Some [face_of (lit "hog") 0 (10, 40, 50, 5)%Z;
          face_of (lit "hog") 1 (10, 90, 50, 60)%Z].
Proof.
  apply (detect_faces_up_to_26 (lit "hog") [(10, 40, 50, 5)%Z; (10, 90, 50, 60)%Z]).
  simpl. lia.
Defined.

(** X14.  The metadata of [detect] agree with the entities it returns:
    the total is their number, each type that occurs is a key, once,
    with the number of entities of that type, no other type is a key,
    and the counts add up to the total. *)
Theorem detect_metadata_counts
    (use_gpu : bool) (face_model : str) (ocr_reader_loaded : bool)
    (enable_object_detection : bool) (faces texts objects : list Entity)
    (detection_time : Q) :
  let r := ImageDetectorRun.detect use_gpu face_model ocr_reader_loaded
             enable_object_detection faces texts objects detection_time in
  fst r = faces ++ texts ++ objects /\
  total_entities (snd r) = length (fst r) /\
  NoDup (keys (entities_by_type (snd r))) /\
  (forall t, dict_get (entities_by_type (snd r)) t =
             if count_type t (fst r) =? 0 then None
             else Some (count_type t (fst r))) /\
  list_sum (values (entities_by_type (snd r))) = total_entities (snd r).
Proof.
  intros r. unfold r, ImageDetectorRun.detect.
  cbn [fst snd total_entities entities_by_type].
  destruct (ImageDetectorMore.fold_count_step (faces ++ texts ++ objects) [] [])
    as (A & B & C).
  - constructor.
  - intros t. reflexivity.
  - repeat split; auto.
Qed.

(** ** More on the image redactor *)

Module ImageRedactorMore.

Import ImageRedactor.

Lemma dict_set_In {V : Type} (k : str) (v : V) (d : dict V) (kv : str * V) :
  In kv (dict_set k v d) -> kv = (k, v) \/ In kv d.
Proof.
  induction d as [|[k' v'] d IH]; simpl.
  - intros [<- | []]. now left.
  - destruct (str_eqb k k'); simpl.
    + intros [<- | H]; auto.
    + intros [<- | H]; auto. destruct (IH H); auto.
Qed.

Lemma dict_set_length {V : Type} (k : str) (v : V) (d : dict V) :
  length (dict_set k v d) <= S (length d).
Proof.
  induction d as [|[k' v'] d IH]; simpl; [lia|].
  destruct (str_eqb k k'); simpl; lia.
Qed.

Section WithCapabilities.

Variable Image : Type.
Variable draw : Image -> DrawOp -> option Image.
Variable utcnow : nat -> str.
Variable draw_borders : bool.
Variable border_color : str.
Variable border_width : Z.

Local Abbreviation step :=
  (redact_entity Image draw utcnow draw_borders border_color border_width).
Local Abbreviation blackout :=
  (_draw_blackout_box Image draw draw_borders border_color border_width).

Lemma label_text_outcome (img : Image) (l l' : list LogRecord) (b : Box)
    (text : str) :
  fst (_draw_label_text Image draw img l b text) =
  fst (_draw_label_text Image draw img l' b text).
Proof.
  destruct b as [[[x1 y1] x2] y2]. unfold _draw_label_text.
  destruct ((x2 - x1 <? 10) || (y2 - y1 <? 10))%Z; [reflexivity|].
  destruct (draw img _); reflexivity.
Qed.

Lemma step_same (st st' : state Image) (e : Entity) :
  same_result st st' -> same_result (step st e) (step st' e).
Proof.
  intros (E1 & E2 & E3). unfold redact_entity. rewrite E1, E2, E3.
  destruct (bbox e) as [b|]; [|repeat split].
  destruct (blackout (redacted_image st') b) as [img | img]; [|repeat split].
  pose proof (label_text_outcome img (log st) (log st') b (placeholder e)) as H.
  destruct (_draw_label_text Image draw img (log st) b (placeholder e))
    as [o l], (_draw_label_text Image draw img (log st') b (placeholder e))
    as [o' l'].
  cbn [fst] in H. subst o'. destruct o; repeat split.
Qed.

Lemma step_without_bbox (st : state Image) (e : Entity) :
  has_bbox e = false -> same_result (step st e) st.
Proof.
  unfold has_bbox, redact_entity. destruct (bbox e); [discriminate|].
  intros _. repeat split.
Qed.

Lemma fold_skips_without_bbox (es : list Entity) (st st' : state Image) :
  same_result st st' ->
  same_result (fold_left step es st) (fold_left step (filter has_bbox es) st').
Proof.
  revert st st'; induction es as [|e es IH]; intros st st' H; [exact H|].
  cbn [fold_left filter]. destruct (has_bbox e) eqn:E.
  - cbn [fold_left]. apply IH. now apply step_same.
  - apply IH. destruct (step_without_bbox st e E) as (A & B & C).
    destruct H as (A' & B' & C'). repeat split; congruence.
Qed.

(** What one iteration may add to the mapping. *)
Lemma step_mapping (st : state Image) (e : Entity) :
  (forall kv, In kv (mapping (step st e)) ->
     In kv (mapping st) \/
     (has_bbox e = true /\ fst kv = placeholder e /\
      entry_placeholder (snd kv) = placeholder e /\
      original_type (snd kv) = type e /\
      entry_modality (snd kv) = lit "image")) /\
  length (mapping (step st e)) <= S (length (mapping st)).
Proof.
  unfold redact_entity, has_bbox.
  destruct (bbox e) as [b|]; cbn [mapping]; [|auto].
  destruct (blackout (redacted_image st) b) as [img | img]; cbn [mapping];
    [|auto].
  destruct (_draw_label_text Image draw img (log st) b (placeholder e))
    as [[img' | img'] l']; cbn [mapping]; [|auto].
  split; [|apply dict_set_length].
  intros kv Hin. apply dict_set_In in Hin as [-> | Hin]; [right | now left].
  repeat split.
Qed.

Lemma fold_mapping (es : list Entity) (st : state Image) :
  (forall kv, In kv (mapping (fold_left step es st)) ->
     In kv (mapping st) \/
     exists e, In e es /\ has_bbox e = true /\ fst kv = placeholder e /\
               entry_placeholder (snd kv) = placeholder e /\
               original_type (snd kv) = type e /\
               entry_modality (snd kv) = lit "image") /\
  length (mapping (fold_left step es st)) <= length (mapping st) + length es.
Proof.
  revert st; induction es as [|e es IH]; intros st.
  - simpl. split; [auto | lia].
  - cbn [fold_left]. destruct (IH (step st e)) as [A B].
    destruct (step_mapping st e) as [C D]. split.
    + intros kv Hin. destruct (A kv Hin) as [Hs | (e' & He' & R)].
      * destruct (C kv Hs) as [Hm | R]; [now left|].
        right. exists e. split; [now left | exact R].
      * right. exists e'. split; [now right | exact R].
    + simpl. lia.
Qed.

End WithCapabilities.

End ImageRedactorMore.

(** X15.  Whenever the image opens, [redact] returns, whatever the
    drawing calls do: the mapping has at most one entry per placeholder
    and at most one per entity, every entry is stored under the
    placeholder of an entity of the list that has a box and records that
    placeholder, the entity's type and the modality ["image"], and for a
    non-empty list the last log record reports the number of entries. *)
Theorem image_mapping_sound
    (Image : Type) (Image_open : str -> Image + ImageRedactor.Raised)
    (draw : Image -> ImageRedactor.DrawOp -> option Image)
    (utcnow : nat -> str) (draw_borders : bool) (border_color : str)
    (border_width : Z) (image_path : str) (img : Image)
    (entities : list Entity) :
  Image_open image_path = inl img ->
  exists img' m l,
    ImageRedactor.redact Image Image_open draw utcnow draw_borders
                         border_color border_width image_path entities
    = (inl (img', m), l) /\
    NoDup (keys m) /\ length m <= length entities /\
    (forall kv, In kv m ->
       exists e, In e entities /\ has_bbox e = true /\
                 fst kv = placeholder e /\
                 ImageRedactor.entry_placeholder (snd kv) = placeholder e /\
                 ImageRedactor.original_type (snd kv) = type e /\
                 ImageRedactor.entry_modality (snd kv) = lit "image") /\
    (entities <> [] ->
     exists l0, l = l0 ++ [ImageRedactor.InfoComplete (length m)]).
Proof.
  intros Ho. unfold ImageRedactor.redact. rewrite Ho.
  destruct entities as [|e0 es] eqn:Ees.
  - exists img, [], [ImageRedactor.InfoNoEntities].
    repeat split; simpl; auto; try constructor; try tauto.
  - rewrite <- Ees.
    set (st := fold_left _ entities _).
    destruct (ImageRedactorMore.fold_mapping Image draw utcnow draw_borders
                border_color border_width entities
                (ImageRedactor.mkState img [] [] 0)) as [A B].
    destruct (ImageFacts.fold_grows Image draw utcnow draw_borders border_color
                border_width entities (ImageRedactor.mkState img [] [] 0))
      as (_ & _ & C).
    fold st in A, B, C. cbn [ImageRedactor.mapping length] in B, C.
    eexists _, _, _. split; [reflexivity|]. repeat split.
    + apply C. constructor.
    + exact B.
    + intros kv Hin. destruct (A kv Hin) as [[] | R]. exact R.
    + intros _. eexists. reflexivity.
Qed.

Lemma image_mapping_sound_witness :
  exists img' m l,
    ImageRedactor.redact canvas canvas_open canvas_draw clock_reading
                         true (lit "red") 2 (lit "test.jpg") [tiny_face; face_entity]
    = (inl (img', m), l) /\
    NoDup (keys m) /\ length m <= 2 /\
    (forall kv, In kv m ->
       exists e, In e [tiny_face; face_entity] /\ has_bbox e = true /\
                 fst kv = placeholder e /\
                 ImageRedactor.entry_placeholder (snd kv) = placeholder e /\
                 ImageRedactor.original_type (snd kv) = type e /\
                 ImageRedactor.entry_modality (snd kv) = lit "image") /\
    ([tiny_face; face_entity] <> [] ->
     exists l0, l = l0 ++ [ImageRedactor.InfoComplete (length m)]).
Proof.
  apply (image_mapping_sound canvas canvas_open canvas_draw clock_reading
           true (lit "red") 2%Z (lit "test.jpg") []).
  reflexivity.
Defined.

(** X16.  Entities without a bounding box are skipped: the image and the
    mapping (or the error) that [redact] returns are the ones it returns
    for the list without those entities. *)
Theorem image_redact_skips_boxless
    (Image : Type) (Image_open : str -> Image + ImageRedactor.Raised)
    (draw : Image -> ImageRedactor.DrawOp -> option Image)
    (utcnow : nat -> str) (draw_borders : bool) (border_color : str)
    (border_width : Z) (image_path : str) (entities : list Entity) :
  fst (ImageRedactor.redact Image Image_open draw utcnow draw_borders
                            border_color border_width image_path entities)
  = fst (ImageRedactor.redact Image Image_open draw utcnow draw_borders
                              border_color border_width image_path
                              (filter has_bbox entities)).
Proof.
  unfold ImageRedactor.redact.
  destruct (Image_open image_path) as [img | []]; try reflexivity.
  pose proof (ImageRedactorMore.fold_skips_without_bbox Image draw utcnow
                draw_borders border_color border_width entities
                (ImageRedactor.mkState img [] [] 0)
                (ImageRedactor.mkState img [] [] 0)) as H.
  destruct H as (A & B & _); [repeat split|].
  destruct entities as [|e0 es] eqn:Ees; [reflexivity|]. rewrite <- Ees in *.
  destruct (filter has_bbox entities) as [|f0 fs] eqn:Ef.
  - cbn [fold_left ImageRedactor.redacted_image ImageRedactor.mapping] in A, B.
    cbn [fst]. now rewrite A, B.
  - cbn [fst]. now rewrite A, B.
Qed.

(** X17.  For a box at least ten pixels wide and high whose blackout was
    drawn: when the text call returns, the placeholder is drawn at the
    centre of the box and the record is stored; when the text call
    raises, the error is logged, nothing is stored and the clock is not
    read, and the blackout stays on the image. *)
Theorem legible_box_label
    (Image : Type) (draw : Image -> ImageRedactor.DrawOp -> option Image)
    (utcnow : nat -> str) (draw_borders : bool) (border_color : str)
    (border_width : Z) (st : ImageRedactor.state Image) (e : Entity)
    (b : Box) (img1 : Image) :
  bbox e = Some b -> legible b ->
  ImageRedactor._draw_blackout_box Image draw draw_borders border_color
    border_width (ImageRedactor.redacted_image st) b
    = ImageRedactor.Returned img1 ->
  match draw img1 (ImageRedactor.DrawText (center b) (placeholder e)) with
  | Some img2 =>
      ImageRedactor.redact_entity Image draw utcnow draw_borders border_color
                                  border_width st e
      = ImageRedactor.mkState img2
          (dict_set (placeholder e) (entry_of utcnow e b (ImageRedactor.clock st))
                    (ImageRedactor.mapping st))
          (ImageRedactor.log st ++ [ImageRedactor.DebugRedacted (placeholder e)])
          (S (ImageRedactor.clock st))
  | None =>
      ImageRedactor.redact_entity Image draw utcnow draw_borders border_color
                                  border_width st e
      = ImageRedactor.mkState img1 (ImageRedactor.mapping st)
          (ImageRedactor.log st ++ [ImageRedactor.ErrorFailed (placeholder e)])
          (ImageRedactor.clock st)
  end.
Proof.
  intros Hb Hl Hd. unfold ImageRedactor.redact_entity. rewrite Hb, Hd.
  destruct b as [[[x1 y1] x2] y2]. unfold legible in Hl.
  unfold ImageRedactor._draw_label_text, center.
  destruct (Z.ltb_spec (x2 - x1) 10); [lia|].
  destruct (Z.ltb_spec (y2 - y1) 10); [lia|]. cbn [orb].
  destruct (draw img1 _); reflexivity.
Qed.

Lemma legible_box_label_witness :
  ImageRedactor.redact_entity canvas canvas_draw clock_reading true (lit "red") 2
    (ImageRedactor.mkState [] [] [] 0) face_entity
  = ImageRedactor.mkState
      [ImageRedactor.Rectangle (48, 48, 252, 252)%Z (lit "red");
       ImageRedactor.Rectangle (50, 50, 250, 250)%Z (lit "black");
       ImageRedactor.DrawText (300 # 2, 300 # 2) (lit "[FACE_A]")]
      [(lit "[FACE_A]", entry_of clock_reading face_entity (50, 50, 250, 250)%Z 0)]
      [ImageRedactor.DebugRedacted (lit "[FACE_A]")]
      1.
Proof.
  apply (legible_box_label canvas canvas_draw clock_reading true (lit "red") 2%Z
           (ImageRedactor.mkState [] [] [] 0) face_entity (50, 50, 250, 250)%Z
           [ImageRedactor.Rectangle (48, 48, 252, 252)%Z (lit "red");
            ImageRedactor.Rectangle (50, 50, 250, 250)%Z (lit "black")]).
  - reflexivity.
  - simpl. lia.
  - reflexivity.
Defined.
